(** * EasyDict cloud services: archive index, codec cache, version ledger

    A shallow embedding of the parts of [docker/user/main.py],
    [docker/api/main.py] and [docker/api/migrate_to_media_db.py] that carry
    the caching and delta-resolution logic, together with the properties
    the design document states about them; and of the functions around
    them: password hashing, dictionary identifiers, the change log and the
    update endpoint, the streams, counts and downloads of the API service,
    with the properties the code itself shows.

    Python values are modelled as follows: [str] is [string] (a byte string,
    so the lexicographic byte order agrees with Python's code point order on
    UTF-8 text), [bytes] is [list Byte.byte], [int] is [Z], a [dict] used as
    a keyed table is a [gmap], a [dict] whose iteration order matters is an
    association list with Python's insertion-order semantics, a [set] is a
    [gset], and a call that may raise returns an [outcome]. *)

From Stdlib Require Import ZArith Ascii.
From stdpp Require Import base option list sorting gmap strings.

Local Open Scope Z_scope.

(** ** Python primitives *)

Module Py.

(** Exceptions that reach the modelled code.  All of them derive from
    [Exception]; [HTTPException] is the one FastAPI turns into a response
    with the given status code. *)
Inductive exn :=
| TypeError
| ValueError
| KeyError
| ZstdError
| OperationalError
| OverflowError
| BadZipFile
| HTTPException (status_code : Z).

Inductive outcome (A : Type) :=
| Ret (a : A)
| Raise (e : exn).
Global Arguments Ret {A} a.
Global Arguments Raise {A} e.

Definition bind {A B} (m : outcome A) (k : A → outcome B) : outcome B :=
  match m with
  | Ret a => k a
  | Raise e => Raise e
  end.

(** [try: m  except Exception: h] *)
Definition try_except {A} (m : outcome A) (h : exn → outcome A) : outcome A :=
  match m with
  | Ret a => Ret a
  | Raise e => h e
  end.

Definition raises {A} (m : outcome A) : Prop := ∃ e, m = Raise e.

Abbreviation bytes := (list Byte.byte).

#[global] Instance byte_eq_dec : EqDecision Byte.byte := Byte.byte_eq_dec.

(** [s.split(sep)] for a one-character separator: never returns the empty
    list, and an empty [s] gives one empty segment. *)
Fixpoint split (sep : ascii) (s : string) : list string :=
  match s with
  | EmptyString => [EmptyString]
  | String c s' =>
      if decide (c = sep) then EmptyString :: split sep s'
      else match split sep s' with
           | [] => [String c EmptyString]
           | w :: ws => String c w :: ws
           end
  end.

(** [sep.join(parts)] *)
Fixpoint join (sep : string) (parts : list string) : string :=
  match parts with
  | [] => EmptyString
  | [w] => w
  | w :: ws => w +:+ sep +:+ join sep ws
  end.

(** [s.startswith(p)] *)
Definition startswith (s p : string) : bool := String.prefix p s.

(** [s.endswith(c)] for a one-character suffix *)
Fixpoint endswith (s : string) (c : ascii) : bool :=
  match s with
  | EmptyString => false
  | String a EmptyString => bool_decide (a = c)
  | String _ s' => endswith s' c
  end.

(** [sub in s] *)
Fixpoint contains (sub s : string) : bool :=
  String.prefix sub s ||
  match s with
  | EmptyString => false
  | String _ s' => contains sub s'
  end.

(** [l[-1]] on a list known to be non-empty (as [split] returns) *)
Definition last_item (l : list string) : string := List.last l EmptyString.

(** [bool(s)] for a [str] *)
Definition truthy_str (s : string) : bool :=
  match s with EmptyString => false | _ => true end.

(** [bool(b)] for [bytes] *)
Definition truthy_bytes (b : bytes) : bool :=
  match b with [] => false | _ => true end.

(** [x or 0] for [x : int | None] *)
Definition or_zero (x : option Z) : Z :=
  match x with
  | None => 0
  | Some v => if decide (v = 0) then 0 else v
  end.

(** [int(x)] for [x : int | None]: [None] is a [TypeError]. *)
Definition int (x : option Z) : outcome Z :=
  match x with
  | Some v => Ret v
  | None => Raise TypeError
  end.

(** [sorted(s)] for a set of strings *)
Definition sorted (s : gset string) : list string :=
  merge_sort String.le (elements s).

(** A [dict] whose iteration order is observed: keys are kept in
    insertion order, and assigning to a key that is already present
    replaces its value without moving it. *)
Section ordered_dict.
Context {K V : Type} `{EqDecision K}.

Definition odict := list (K * V).

Fixpoint setitem (k : K) (v : V) (d : odict) : odict :=
  match d with
  | [] => [(k, v)]
  | (k', v') :: d' =>
      if decide (k' = k) then (k', v) :: d' else (k', v') :: setitem k v d'
  end.

Definition clear (d : odict) : odict := [].

Definition keys (d : odict) : list K := d.*1.
End ordered_dict.
Global Arguments odict : clear implicits.

End Py.

#[global] Instance outcome_ret : MRet Py.outcome := @Py.Ret.
#[global] Instance outcome_bind : MBind Py.outcome := λ A B k m, Py.bind m k.

(** ** The [zstandard] and [json] packages

    Both are external to the repository.  Their objects are modelled by the
    data the services give them, and the calls the services make are the
    methods of an interface. *)

Module Zstd.
Import Py.

(** [ZstdCompressor(level=l)] or [ZstdCompressor(level=l, dict_data=d)] *)
Record ZstdCompressor := {
  level : Z;
  cdict : option bytes;
}.

(** [ZstdDecompressor()] or [ZstdDecompressor(dict_data=d)] *)
Record ZstdDecompressor := {
  ddict : option bytes;
}.

Class Codec := {
  (** [ZstdCompressionDict(b)] and its attachment to a context: the
      library may refuse the blob. *)
  load_dict : bytes → outcome unit;
  (** [cctx.compress(data)] *)
  compress : ZstdCompressor → bytes → outcome bytes;
  (** [dctx.decompress(data)] *)
  decompress : ZstdDecompressor → bytes → outcome bytes;
}.

(** A small frame format used to exercise the services: one magic byte,
    one byte naming the dictionary (its first byte, or zero), then the
    payload as it is. *)
Definition frame_magic : Byte.byte := Byte.x28.

Definition dict_tag (d : option bytes) : Byte.byte :=
  match d with
  | Some (b :: _) => b
  | _ => Byte.x00
  end.

Definition frame_codec : Codec := {|
  load_dict b := Ret ();
  compress c data := Ret (frame_magic :: dict_tag (cdict c) :: data);
  decompress c data :=
    match data with
    | m :: t :: payload =>
        if decide (m = frame_magic ∧ t = dict_tag (ddict c))
        then Ret payload else Raise ZstdError
    | _ => Raise ZstdError
    end;
|}.
End Zstd.

Module Json.
Import Py.

(** What [json.loads] returns.  The proofs never recurse over it, so no
    induction scheme is generated. *)
#[local] Unset Elimination Schemes.
Inductive value :=
| Null
| Bool (b : bool)
| Int (z : Z)
| Float (repr : string)
| Str (s : string)
| List (items : list value)
| Dict (items : list (string * value)).
#[local] Set Elimination Schemes.

(** [{}] *)
Definition empty_dict : value := Dict [].

Class Package := {
  (** [json.loads(raw)]; a [JSONDecodeError] is a [ValueError]. *)
  loads : bytes → outcome value;
  (** [json.dumps(v, ensure_ascii=False).encode("utf-8")] *)
  dumps : value → bytes;
}.

(** A reader and writer for three texts, enough to run the services on
    examples. *)
Definition text (s : string) : bytes := String.list_byte_of_string s.

Definition sample_package : Package := {|
  loads raw :=
    if decide (raw = text "{}") then Ret (Dict [])
    else if decide (raw = text "null") then Ret Null
    else if decide (raw = text "[42]") then Ret (List [Int 42])
    else Raise ValueError;
  dumps v :=
    match v with
    | Dict [] => text "{}"
    | List [Int 42] => text "[42]"
    | Null => text "null"
    | _ => text "?"
    end;
|}.
End Json.

(** ** A dictionary's [dictionary.db]

    Both services read the training blob of a dictionary from the [config]
    table of its database. *)

Module Sqlite.
Import Py.

(** An open connection, as far as the services query it:
    [SELECT value FROM config WHERE key = 'zstd_dict'] followed by
    [fetchone()] raises (no such table), finds no row ([None]), or finds
    a row whose [value] is [NULL] or a blob. *)
Record Connection := {
  select_zstd_dict : outcome (option (option bytes));
}.

(** The integers SQLite stores and [sqlite3] binds to a [?] of a
    statement: those of a signed 64-bit word. *)
Definition int64 (n : Z) : Prop :=
  -9223372036854775808 ≤ n ≤ 9223372036854775807.

#[global] Instance int64_dec n : Decision (int64 n).
Proof. unfold int64. apply _. Defined.

(** Binding an [int] to a [?]: outside that range [execute] raises
    [OverflowError] (Python int too large to convert to SQLite INTEGER)
    before the statement runs. *)
Definition bind_int (n : Z) : outcome unit :=
  if decide (int64 n) then Ret () else Raise OverflowError.

(** Binding an [int | None]: [None] is [NULL]. *)
Definition bind_optional_int (n : option Z) : outcome unit :=
  match n with
  | Some k => bind_int k
  | None => Ret ()
  end.
End Sqlite.

(** ** The user service: version ledger and delta resolver
    ([docker/user/main.py]) *)

Module User.
Import Py.

(** One row of the [version_history] table.  The table is a list in
    [id] (insertion) order.  [entry_id] is the value [record_version]
    was given: an [int], or [None] for the rows of a file update.  The
    column is [TEXT]: SQLite stores the integer as its decimal text and
    [int(r["entry_id"])] reads the same integer back, so the row holds the
    integer itself. *)
Record VersionRow := {
  dict_id : string;
  version : Z;
  message : string;
  change_type : string;
  file_name : string;
  entry_id : option Z;
}.

Abbreviation version_history := (list VersionRow).

(** [_get_zstd_dict] on the database found at [db_path]:
    [bytes(row[0]) if row and row[0] else None], and [None] when the
    query raises. *)
Definition _get_zstd_dict (db : Sqlite.Connection) : option bytes :=
  match Sqlite.select_zstd_dict db with
  | Ret (Some (Some b)) => if truthy_bytes b then Some b else None
  | _ => None
  end.

Definition compress_entry `{!Zstd.Codec} (data : bytes)
    (zdict_bytes : option bytes) : outcome bytes :=
  cctx ← match zdict_bytes with
         | Some b =>
             if truthy_bytes b then
               _ ← Zstd.load_dict b;
               Ret {| Zstd.level := 7; Zstd.cdict := Some b |}
             else Ret {| Zstd.level := 7; Zstd.cdict := None |}
         | None => Ret {| Zstd.level := 7; Zstd.cdict := None |}
         end;
  Zstd.compress cctx data.

(** [SELECT MAX(version) FROM version_history WHERE dict_id = ?]:
    [None] is SQL [NULL], the maximum of no rows. *)
Fixpoint select_max_version (db : version_history) (d : string) : option Z :=
  match db with
  | [] => None
  | r :: db' =>
      if decide (dict_id r = d) then
        match select_max_version db' d with
        | None => Some (version r)
        | Some m => Some (Z.max (version r) m)
        end
      else select_max_version db' d
  end.

Definition next_version (db : version_history) (d : string) : Z :=
  or_zero (select_max_version db d) + 1.

(** [record_version]: one [INSERT] at the end of the table, committed when
    the [with] block ends; [version] and [entry_id] are bound as integers,
    so the call raises and writes nothing when one of them cannot be
    bound. *)
Definition record_version (db : version_history) (d : string) (ver : Z)
    (msg chg fname : string) (eid : option Z) : outcome version_history :=
  _ ← Sqlite.bind_int ver;
  _ ← Sqlite.bind_optional_int eid;
  Ret (db ++ [{| dict_id := d; version := ver; message := msg;
                 change_type := chg; file_name := fname; entry_id := eid |}]).

(** The ledger writes of [upload_dict] and [update_dict]:
    [for fname in updated_files: record_version(dict_id, ver, message,
    "file", fname)].  Every call commits on its own, so the rows written
    before a call that raises stay in the table. *)
Fixpoint record_files (db : version_history) (d : string) (ver : Z)
    (msg : string) (fnames : list string) : outcome unit * version_history :=
  match fnames with
  | [] => (Ret (), db)
  | fname :: fnames' =>
      match record_version db d ver msg "file" fname None with
      | Ret db' => record_files db' d ver msg fnames'
      | Raise e => (Raise e, db)
      end
  end.

(** The ledger writes of [upsert_dict_entries]: one [entry] row per entry
    that has an [entry_id], with [int(eid)], all under the version of the
    batch. *)
Fixpoint record_entries (db : version_history) (d : string) (ver : Z)
    (msg : string) (eids : list Z) : outcome unit * version_history :=
  match eids with
  | [] => (Ret (), db)
  | eid :: eids' =>
      match record_version db d ver msg "entry" "dictionary.db" (Some eid) with
      | Ret db' => record_entries db' d ver msg eids'
      | Raise e => (Raise e, db)
      end
  end.

(** [ORDER BY version ASC].  SQLite walks the index on
    [(dict_id, version)], whose ties are in [id] order, so the sort is
    the stable one. *)
Fixpoint insert_by_version (r : VersionRow) (l : list VersionRow)
    : list VersionRow :=
  match l with
  | [] => [r]
  | x :: l' =>
      if decide (version r ≤ version x) then r :: l
      else x :: insert_by_version r l'
  end.

Definition order_by_version (l : list VersionRow) : list VersionRow :=
  foldr insert_by_version [] l.

Definition in_window (d : string) (from_ver to_ver : Z) (r : VersionRow)
    : Prop :=
  dict_id r = d ∧ from_ver < version r ∧ version r ≤ to_ver.

#[global] Instance in_window_dec d f t r : Decision (in_window d f t r).
Proof. unfold in_window. apply _. Defined.

(** The rows of [SELECT ... WHERE dict_id = ? AND version > ? AND
    version <= ? ORDER BY version ASC]. *)
Definition window_rows (db : version_history) (d : string)
    (from_ver to_ver : Z) : list VersionRow :=
  order_by_version (filter (in_window d from_ver to_ver) db).

(** [conn.execute(<that statement>, (dict_id, from_ver, to_ver)).fetchall()]:
    the two bounds are bound as integers before the statement runs. *)
Definition select_window (db : version_history) (d : string)
    (from_ver to_ver : Z) : outcome (list VersionRow) :=
  _ ← Sqlite.bind_int from_ver;
  _ ← Sqlite.bind_int to_ver;
  Ret (window_rows db d from_ver to_ver).

Record manifest := {
  files : list string;
  entries : list Z;
}.

(** The two accumulators of [_compute_required_files]. *)
Record needed := {
  files_needed : gset string;
  entries_needed : odict Z unit;
}.

(** The body of the [for r in rows] loop. *)
Definition scan_row (st : needed) (r : VersionRow) : outcome needed :=
  if decide (change_type r = "file") then
    let fs := {[ file_name r ]} ∪ files_needed st in
    if decide (file_name r = "dictionary.db") then
      Ret {| files_needed := fs; entries_needed := clear (entries_needed st) |}
    else
      Ret {| files_needed := fs; entries_needed := entries_needed st |}
  else if decide (change_type r = "entry") then
    k ← int (entry_id r);
    Ret {| files_needed := files_needed st;
           entries_needed := setitem k () (entries_needed st) |}
  else Ret st.

Fixpoint scan_rows (st : needed) (rows : list VersionRow) : outcome needed :=
  match rows with
  | [] => Ret st
  | r :: rows' => st' ← scan_row st r; scan_rows st' rows'
  end.

Definition _compute_required_files (db : version_history) (d : string)
    (from_ver to_ver : Z) : outcome manifest :=
  rows ← select_window db d from_ver to_ver;
  st ← scan_rows {| files_needed := ∅; entries_needed := [] |} rows;
  Ret {| files := sorted (files_needed st);
         entries := keys (entries_needed st) |}.

End User.

(** ** The API service: archive index, codec cache, media lookup
    ([docker/api/main.py], [docker/api/migrate_to_media_db.py]) *)

Module Api.
Import Py.

(** *** Archives *)

(** A member of a zip archive: its name in the central directory and what
    [zf.read] returns for it. *)
Record ZipMember := {
  filename : string;
  content : outcome bytes;
}.

(** An open [ZipFile]: its members in central-directory order. *)
Abbreviation ZipFile := (list ZipMember).

Definition namelist (zf : ZipFile) : list string := filename <$> zf.

(** [ZipInfo.is_dir()] *)
Definition is_dir (m : ZipMember) : bool := endswith (filename m) "/".

(** [zf.read(name)]: the archive's name table keeps the last member of
    each name. *)
Definition read (zf : ZipFile) (name : string) : outcome bytes :=
  match last (filter (λ m, filename m = name) zf) with
  | Some m => content m
  | None => Raise KeyError
  end.

(** The statements of [get_zip_index] that register one file name. *)
Definition index_name (index : gmap string string) (name : string)
    : gmap string string :=
  let index := <[name := name]> index in
  let filename := last_item (split "/" name) in
  let index :=
    if truthy_str filename then <[filename := name]> index else index in
  let parts := split "/" name in
  if decide (1 < length parts)%nat then
    let short_path := join "/" (drop 1 parts) in
    let index := <[short_path := name]> index in
    if decide (2 < length parts)%nat then
      let short_path2 := join "/" (drop 2 parts) in
      <[short_path2 := name]> index
    else index
  else index.

(** The [for name in namelist] loop over the index and the file count. *)
Fixpoint index_names (index : gmap string string) (file_count : Z)
    (names : list string) : gmap string string * Z :=
  match names with
  | [] => (index, file_count)
  | name :: names' =>
      if endswith name "/" then index_names index file_count names'
      else index_names (index_name index name) (file_count + 1) names'
  end.

Definition build_index (names : list string) : gmap string string :=
  (index_names ∅ 0 names).1.

(** What is found at a path: its modification time and what
    [zipfile.ZipFile(path)] gives. *)
Record ZipOnDisk := {
  st_mtime : Z;
  opened : outcome ZipFile;
}.

Record ZipCaches := {
  _zip_file_cache : gmap string ZipFile;
  _zip_index_cache : gmap string (gmap string string);
  _zip_file_mtime_cache : gmap string Z;
  _zip_file_count_cache : gmap string Z;
}.

Definition close_stale (c : ZipCaches) (cache_key : string) : ZipCaches :=
  {| _zip_file_cache := delete cache_key (_zip_file_cache c);
     _zip_index_cache := _zip_index_cache c;
     _zip_file_mtime_cache := _zip_file_mtime_cache c;
     _zip_file_count_cache := _zip_file_count_cache c |}.

Definition store_index (c : ZipCaches) (cache_key : string) (zf : ZipFile)
    (built : gmap string string * Z) (mtime : Z) : ZipCaches :=
  {| _zip_file_cache := <[cache_key := zf]> (_zip_file_cache c);
     _zip_index_cache := <[cache_key := built.1]> (_zip_index_cache c);
     _zip_file_mtime_cache := <[cache_key := mtime]> (_zip_file_mtime_cache c);
     _zip_file_count_cache := <[cache_key := built.2]> (_zip_file_count_cache c) |}.

Definition get_zip_index (disk : string → option ZipOnDisk) (c : ZipCaches)
    (zip_path : string) : outcome (gmap string string) * ZipCaches :=
  let cache_key := zip_path in
  match disk zip_path with
  | None => (Raise (HTTPException 404), c)
  | Some f =>
      let current_mtime := st_mtime f in
      let rebuild (c : ZipCaches) :=
        match opened f with
        | Ret zf =>
            let built := index_names ∅ 0 (namelist zf) in
            (Ret built.1, store_index c cache_key zf built current_mtime)
        | Raise _ => (Raise (HTTPException 500), c)
        end in
      match _zip_file_cache c !! cache_key with
      | Some _ =>
          if decide (_zip_file_mtime_cache c !! cache_key = Some current_mtime)
          then
            match _zip_index_cache c !! cache_key with
            | Some index => (Ret index, c)
            | None => (Raise KeyError, c)
            end
          else rebuild (close_stale c cache_key)
      | None => rebuild c
      end
  end.

(** *** Codec cache *)

(** What is found at [DICTIONARIES_PATH / dict_id / "dictionary.db"]:
    nothing, or a file on which [aiosqlite.connect] raises or succeeds. *)
Definition Dictionaries := string → option (outcome Sqlite.Connection).

Record Caches := {
  _db_connections : gmap string Sqlite.Connection;
  _zstd_decompressors : gmap string Zstd.ZstdDecompressor;
}.

Definition get_db_connection (disk : Dictionaries) (st : Caches)
    (dict_id : string) : option Sqlite.Connection * Caches :=
  let cache_key := dict_id in
  match _db_connections st !! cache_key with
  | Some conn => (Some conn, st)
  | None =>
      match disk dict_id with
      | None => (None, st)
      | Some (Ret conn) =>
          (Some conn,
           {| _db_connections := <[cache_key := conn]> (_db_connections st);
              _zstd_decompressors := _zstd_decompressors st |})
      | Some (Raise _) => (None, st)
      end
  end.

(** The context built from the row the [config] query returned: seeded
    when the row holds a non-empty blob, plain otherwise. *)
Definition decompressor_of_row `{!Zstd.Codec} (row : option (option bytes))
    : outcome Zstd.ZstdDecompressor :=
  match row with
  | Some (Some b) =>
      if truthy_bytes b then
        _ ← Zstd.load_dict b;
        Ret {| Zstd.ddict := Some b |}
      else Ret {| Zstd.ddict := None |}
  | _ => Ret {| Zstd.ddict := None |}
  end.

Definition cache_decompressor (st : Caches) (dict_id : string)
    (dctx : Zstd.ZstdDecompressor) : Caches :=
  {| _db_connections := _db_connections st;
     _zstd_decompressors := <[dict_id := dctx]> (_zstd_decompressors st) |}.

Definition get_zstd_decompressor `{!Zstd.Codec} (disk : Dictionaries)
    (st : Caches) (dict_id : string)
    : option Zstd.ZstdDecompressor * Caches :=
  match _zstd_decompressors st !! dict_id with
  | Some dctx => (Some dctx, st)
  | None =>
      let '(conn, st) := get_db_connection disk st dict_id in
      match conn with
      | None => (None, st)
      | Some conn =>
          let dctx :=
            match row ← Sqlite.select_zstd_dict conn;
                  decompressor_of_row row with
            | Ret dctx => dctx
            | Raise _ => {| Zstd.ddict := None |}
            end in
          (Some dctx, cache_decompressor st dict_id dctx)
      end
  end.

Definition decompress_json_data `{!Zstd.Codec, !Json.Package}
    (data : option bytes) (dctx : option Zstd.ZstdDecompressor)
    : outcome Json.value :=
  match data with
  | None => Ret Json.empty_dict
  | Some data =>
      let raw := data in
      raw ← match dctx with
            | Some dctx =>
                try_except (Zstd.decompress dctx raw) (λ _, Ret raw)
            | None => Ret raw
            end;
      try_except (Json.loads raw) (λ _, Ret Json.empty_dict)
  end.

(** *** Media database *)

(** The [audios] and [images] tables of [media.db]: [name] is the primary
    key. *)
Record MediaDb := {
  audios : gmap string bytes;
  images : gmap string bytes;
}.

(** The [for file_info in zf.filelist] loop of the migration:
    [INSERT OR REPLACE] of every file under the last segment of its name.
    The rows written before a failing [zf.read] stay in the table the
    loop was given. *)
Fixpoint migrate_members (zf : ZipFile) (members : list ZipMember)
    (table : gmap string bytes) : outcome unit * gmap string bytes :=
  match members with
  | [] => (Ret (), table)
  | file_info :: members' =>
      if is_dir file_info then migrate_members zf members' table
      else
        let file_name := filename file_info in
        let simple_name := last_item (split "/" file_name) in
        match read zf file_name with
        | Ret file_data =>
            migrate_members zf members' (<[simple_name := file_data]> table)
        | Raise e => (Raise e, table)
        end
  end.

(** One [with zipfile.ZipFile(path) as zf] block. *)
Definition migrate_zip (zip : outcome ZipFile) (table : gmap string bytes)
    : outcome unit * gmap string bytes :=
  match zip with
  | Ret zf => migrate_members zf zf table
  | Raise e => (Raise e, table)
  end.

(** What the migration finds in the dictionary's directory. *)
Record MigrationInput := {
  audios_zip : option (outcome ZipFile);
  images_zip : option (outcome ZipFile);
  create_media_db_ok : bool;
  connection_ok : bool;
}.

(** [migrate_zip_to_media_db] of the service: the connection is the
    cached one, so rows written before a failure remain visible on it. *)
Definition migrate_zip_to_media_db (i : MigrationInput) (db : MediaDb)
    : bool * MediaDb :=
  match audios_zip i, images_zip i with
  | None, None => (true, db)
  | _, _ =>
      if negb (create_media_db_ok i) then (false, db)
      else if negb (connection_ok i) then (false, db)
      else
        let '(r, a) :=
          match audios_zip i with
          | Some zip => migrate_zip zip (audios db)
          | None => (Ret (), audios db)
          end in
        match r with
        | Raise _ => (false, {| audios := a; images := images db |})
        | Ret _ =>
            let '(r, im) :=
              match images_zip i with
              | Some zip => migrate_zip zip (images db)
              | None => (Ret (), images db)
              end in
            (match r with Ret _ => true | Raise _ => false end,
             {| audios := a; images := im |})
        end
  end.

(** The media-database branch of [get_audio_file]:
    [SELECT blob FROM audios WHERE name = ?] with the request path. *)
Definition get_audio_file (db : MediaDb) (file_path : string)
    : outcome bytes :=
  match audios db !! file_path with
  | Some blob_data => Ret blob_data
  | None => Raise (HTTPException 404)
  end.


(** *** Auxiliary files *)

(** A [pathlib] path: whether it starts at the root, and its segments.
    Parsing drops empty and ["."] segments and keeps [".."]. *)
Record PurePath := {
  anchored : bool;
  parts : list string;
}.

Definition parse_path (s : string) : PurePath :=
  {| anchored := startswith s "/";
     parts := filter (λ w, w ≠ EmptyString ∧ w ≠ "."%string) (split "/" s) |}.

(** [p / s] *)
Definition truediv (p : PurePath) (s : string) : PurePath :=
  let q := parse_path s in
  if anchored q then q
  else {| anchored := anchored p; parts := parts p ++ parts q |}.

Record AuxiliaryFiles := {
  AUXILIARY_PATH : PurePath;
  path_exists : PurePath → bool;
  path_is_file : PurePath → bool;
}.

(** What the handler does with the file system, in order. *)
Inductive fs_event :=
| Joined (p : PurePath)
| Probed (p : PurePath)
| Served (p : PurePath).

Record FileResponse := {
  path : PurePath;
  download_name : string;
}.

Definition get_auxiliary_file (fs : AuxiliaryFiles) (filename : string)
    : list fs_event * outcome FileResponse :=
  if contains ".." filename || startswith filename "/" then
    ([], Raise (HTTPException 400))
  else
    let file_path := truediv (AUXILIARY_PATH fs) filename in
    if negb (path_exists fs file_path) || negb (path_is_file fs file_path)
    then ([Joined file_path; Probed file_path], Raise (HTTPException 404))
    else ([Joined file_path; Probed file_path; Served file_path],
          Ret {| path := file_path; download_name := filename |}).

End Api.

(** ** The stand-alone migration script
    ([docker/api/migrate_to_media_db.py]) *)

Module MigrateScript.
Import Py Api.

(** The script opens its own connection, commits after each archive and
    closes the connection without committing when an archive fails; the
    result is the database file it leaves behind. *)
Definition migrate_zip_to_media_db (i : MigrationInput) (db : MediaDb)
    : bool * MediaDb :=
  match audios_zip i, images_zip i with
  | None, None => (true, db)
  | _, _ =>
      if negb (create_media_db_ok i) then (false, db)
      else if negb (connection_ok i) then (false, db)
      else
        let '(r, a) :=
          match audios_zip i with
          | Some zip => migrate_zip zip (audios db)
          | None => (Ret (), audios db)
          end in
        match r with
        | Raise _ => (false, db)
        | Ret _ =>
            let '(r, im) :=
              match images_zip i with
              | Some zip => migrate_zip zip (images db)
              | None => (Ret (), images db)
              end in
            match r with
            | Ret _ => (true, {| audios := a; images := im |})
            | Raise _ => (false, {| audios := a; images := images db |})
            end
        end
  end.
End MigrateScript.

(** ** The design document's wording of the delta resolver and of the
    archive index keys *)

Module ManifestSpec.
Import User.

(** "Add to the collection": a value already present keeps its place. *)
Definition add_once {A} `{EqDecision A} (x : A) (l : list A) : list A :=
  if decide (x ∈ l) then l else l ++ [x].

Record required := {
  required_files : list string;
  required_entries : list Z;
}.

(** One record of the window: a [file] record adds its target to the
    required files and, when the target is the primary store, clears the
    required entries; an [entry] record adds its identifier. *)
Definition step (a : required) (r : VersionRow) : required :=
  if decide (change_type r = "file") then
    {| required_files := add_once (file_name r) (required_files a);
       required_entries :=
         if decide (file_name r = "dictionary.db") then []
         else required_entries a |}
  else if decide (change_type r = "entry") then
    match entry_id r with
    | Some k =>
        {| required_files := required_files a;
           required_entries := add_once k (required_entries a) |}
    | None => a
    end
  else a.

Definition scan (rows : list VersionRow) : required :=
  foldl step {| required_files := []; required_entries := [] |} rows.

Definition manifest_of (rows : list VersionRow) : manifest :=
  {| files := merge_sort String.le (required_files (scan rows));
     entries := required_entries (scan rows) |}.

(** Ascending version order of the scanned records. *)
Definition version_le (r1 r2 : VersionRow) : Prop :=
  version r1 ≤ version r2.

(** Every [entry] record carries an identifier, as the only writer of
    such records ([upsert_dict_entries]) guarantees. *)
Definition entries_identified (db : version_history) : Prop :=
  ∀ r, r ∈ db → change_type r = "entry" → is_Some (entry_id r).

(** The ledger of the design document's scenario. *)
Definition en_fr : version_history :=
  let row v chg fname eid :=
    {| dict_id := "en-fr"; version := v; message := "update";
       change_type := chg; file_name := fname; entry_id := eid |} in
  [ row 1 "file" "metadata.json" None;
    row 1 "file" "dictionary.db" None;
    row 2 "entry" "dictionary.db" (Some 42);
    row 2 "entry" "dictionary.db" (Some 43);
    row 3 "file" "dictionary.db" None ].

(** The simulation between the accumulators of the code and those of the
    document. *)
Definition agrees (st : needed) (a : required) : Prop :=
  files_needed st = list_to_set (required_files a)
  ∧ NoDup (required_files a)
  ∧ Py.keys (entries_needed st) = required_entries a
  ∧ NoDup (required_entries a).

(** A record that replaces the primary structured-entry store. *)
Definition replaces_store (r : VersionRow) : Prop :=
  change_type r = "file" ∧ file_name r = "dictionary.db".

(** The versions the ledger records for a dictionary. *)
Definition versions_of (db : version_history) (d : string) : list Z :=
  version <$> filter (λ r, dict_id r = d) db.

(** The design document's sentence on the scan, for one window: the
    manifest is the result of scanning the records of the window in
    ascending version order. *)
Definition manifest_is_ordered_scan (db : version_history) (d : string)
    (from_ver to_ver : Z) : Prop :=
  ∃ rows, rows ≡ₚ filter (in_window d from_ver to_ver) db
          ∧ Sorted version_le rows
          ∧ _compute_required_files db d from_ver to_ver
            = Py.Ret (manifest_of rows).

(** The design document's sentence on the empty window, for one pair of
    versions: both collections empty, returned and not raised. *)
Definition empty_window_is_noop (db : version_history) (d : string)
    (from_ver to_ver : Z) : Prop :=
  from_ver >= to_ver →
  _compute_required_files db d from_ver to_ver
  = Py.Ret {| files := []; entries := [] |}.

(** The first integer [sqlite3] cannot bind. *)
Definition beyond_int64 : Z := 9223372036854775808.

(** Every version in the ledger is one SQLite stores; [record_version]
    writes no other. *)
Definition versions_storable (db : version_history) : Prop :=
  ∀ r, r ∈ db → Sqlite.int64 (version r).

(** The row [record_version] writes for a file of a batch. *)
Definition file_row (d : string) (ver : Z) (msg fname : string) : VersionRow :=
  {| dict_id := d; version := ver; message := msg;
     change_type := "file"; file_name := fname; entry_id := None |}.

(** The row [record_version] writes for an entry of a batch. *)
Definition entry_row (d : string) (ver : Z) (msg : string) (eid : Z)
    : VersionRow :=
  {| dict_id := d; version := ver; message := msg;
     change_type := "entry"; file_name := "dictionary.db";
     entry_id := Some eid |}.
End ManifestSpec.

Module IndexSpec.
Import Py.

Definition segments (name : string) : list string := split "/" name.

(** Final path segment. *)
Definition basename (name : string) : string := last_item (segments name).

(** The path with its first [n] segments stripped. *)
Definition tail_stripped (n : nat) (name : string) : string :=
  join "/" (drop n (segments name)).

(** The keys derived from an entry's path: basename, tail-1 when the path
    has at least two segments, tail-2 when it has at least three. *)
Definition derived_keys (name : string) : list string :=
  [basename name]
  ++ (if decide (2 ≤ length (segments name))%nat
      then [tail_stripped 1 name] else [])
  ++ (if decide (3 ≤ length (segments name))%nat
      then [tail_stripped 2 name] else []).

(** All keys of an entry: its full internal path and the derived ones. *)
Definition key_variants (name : string) : list string :=
  name :: derived_keys name.

Definition is_file_entry (name : string) : Prop := endswith name "/" = false.

#[global] Instance is_file_entry_dec name : Decision (is_file_entry name).
Proof. unfold is_file_entry. apply _. Defined.

(** The entries of an archive that produce a derived key, in enumeration
    order. *)
Definition derivers (names : list string) (key : string) : list string :=
  filter (λ n, is_file_entry n ∧ key ∈ derived_keys n) names.

(** The entries of an archive that register a key, in enumeration
    order. *)
Definition registrants (names : list string) (key : string) : list string :=
  filter (λ n, is_file_entry n ∧ key ∈ key_variants n) names.

(** The collision policy as the design document states it. *)
Definition first_wins (names : list string) : Prop :=
  ∀ key e, head (derivers names key) = Some e →
           Api.build_index names !! key = Some e.

(** Every key of every entry resolves to that entry. *)
Definition every_key_resolves (names : list string) : Prop :=
  ∀ e key, e ∈ names → is_file_entry e → key ∈ key_variants e →
           Api.build_index names !! key = Some e.

(** The keys [index_name] assigns, in the order of its statements. *)
Definition registered_keys (name : string) : list string :=
  let parts := split "/" name in
  [name]
  ++ (if truthy_str (last_item parts) then [last_item parts] else [])
  ++ (if decide (1 < length parts)%nat then
        join "/" (drop 1 parts)
        :: (if decide (2 < length parts)%nat
            then [join "/" (drop 2 parts)] else [])
      else []).

Definition register (name : string) (index : gmap string string)
    (keys : list string) : gmap string string :=
  foldl (λ m key, <[key := name]> m) index keys.

(** Two entries with the same basename. *)
Definition colliding : list string := ["a/x.mp3"; "b/x.mp3"].

(** The archive of the design document's scenario. *)
Definition audios_archive : list string := ["media/audios/word1.mp3"].
End IndexSpec.

(** ** The design document's wording of the codec cache, the media lookup
    and the auxiliary-file guard *)

Module CodecSpec.
Import Py Zstd Api.

Definition plain : ZstdDecompressor := {| ddict := None |}.

Definition seeded (b : bytes) : ZstdDecompressor := {| ddict := Some b |}.

(** The contract of the codec library: what a compressor produced, a
    decompressor holding the same dictionary turns back into the input. *)
Definition round_trips `{!Codec} : Prop :=
  ∀ lvl d data c,
    compress {| level := lvl; cdict := d |} data = Ret c →
    decompress {| ddict := d |} c = Ret data.

(** The dictionary's stored training blob, when one is present. *)
Definition training_blob (conn : Sqlite.Connection) : option bytes :=
  match Sqlite.select_zstd_dict conn with
  | Ret (Some (Some b)) => if truthy_bytes b then Some b else None
  | _ => None
  end.

(** Whether the codec library accepts a blob as dictionary data. *)
Definition accepted `{!Codec} (b : bytes) : bool :=
  match load_dict b with
  | Ret _ => true
  | Raise _ => false
  end.

(** The context a dictionary's database calls for. *)
Definition context_for `{!Codec} (conn : Sqlite.Connection)
    : ZstdDecompressor :=
  match training_blob conn with
  | Some b => if accepted b then seeded b else plain
  | None => plain
  end.

(** The ordered fallback chain of [decompress]: the decompressed bytes when
    the context yields some, else the input as it is; then the parsed value,
    else the empty structured value. *)
Definition fallback_chain `{!Codec, !Json.Package} (raw : bytes)
    (dctx : option ZstdDecompressor) : Json.value :=
  let decoded :=
    match dctx with
    | Some c =>
        match decompress c raw with
        | Ret r => r
        | Raise _ => raw
        end
    | None => raw
    end in
  match Json.loads decoded with
  | Ret v => v
  | Raise _ => Json.empty_dict
  end.

(** Bytes the context does not decompress. *)
Definition not_compressed `{!Codec} (dctx : option ZstdDecompressor)
    (raw : bytes) : Prop :=
  ∀ c, dctx = Some c → raises (decompress c raw).

(** Bytes that do not parse, and neither does what the context decompresses
    them to. *)
Definition garbage `{!Codec, !Json.Package} (dctx : option ZstdDecompressor)
    (g : bytes) : Prop :=
  raises (Json.loads g)
  ∧ ∀ c r, dctx = Some c → decompress c g = Ret r → raises (Json.loads r).

(** Every dictionary identifier gets a cached context. *)
Definition always_cached `{!Codec} : Prop :=
  ∀ disk st dict_id,
    ∃ dctx, (get_zstd_decompressor disk st dict_id).1 = Some dctx
            ∧ _zstd_decompressors (get_zstd_decompressor disk st dict_id).2
                !! dict_id = Some dctx.

(** No dictionary on disk, and nothing cached yet. *)
Definition no_dictionaries : Dictionaries := λ _, None.

Definition cold : Caches :=
  {| _db_connections := ∅; _zstd_decompressors := ∅ |}.

(** One dictionary, [en-fr], whose database holds the given [config] row. *)
Definition only_en_fr (row : option (option bytes)) : Dictionaries :=
  λ d, if decide (d = "en-fr")
       then Some (Ret {| Sqlite.select_zstd_dict := Ret row |})
       else None.
End CodecSpec.

Module MediaSpec.
Import Py Api.


(** The archive of the design document's scenario, with some content. *)
Definition audios_zip_sample : ZipFile :=
  [{| filename := "media/audios/word1.mp3";
      content := Ret [Byte.x49; Byte.x44; Byte.x33] |}].

Definition only_audios : MigrationInput :=
  {| audios_zip := Some (Ret audios_zip_sample); images_zip := None;
     create_media_db_ok := true; connection_ok := true |}.

Definition empty_media_db : MediaDb := {| audios := ∅; images := ∅ |}.
End MediaSpec.

Module AuxSpec.
Import Py Api.

(** The file names the guard of the endpoint refuses. *)
Definition traversal (filename : string) : Prop :=
  contains ".." filename = true ∨ startswith filename "/" = true.

(** A path that stays under the auxiliary root: the root's segments followed
    by segments none of which steps up. *)
Definition within_root (fs : AuxiliaryFiles) (p : PurePath) : Prop :=
  anchored p = anchored (AUXILIARY_PATH fs)
  ∧ ∃ rest, parts p = parts (AUXILIARY_PATH fs) ++ rest
            ∧ ".."%string ∉ rest.

(** The default root, with every path present as a file. *)
Definition everything_present : AuxiliaryFiles :=
  {| AUXILIARY_PATH := parse_path "/data/auxiliary";
     path_exists := λ _, true;
     path_is_file := λ _, true |}.
End AuxSpec.

(** ** Further Python primitives *)

Module PyMore.
Import Py.

(** [s.partition(sep)] for a one-character separator, when it occurs. *)
Fixpoint partition_at (sep : ascii) (s : string) : option (string * string) :=
  match s with
  | EmptyString => None
  | String c s' =>
      if decide (c = sep) then Some (EmptyString, s')
      else match partition_at sep s' with
           | Some (a, b) => Some (String c a, b)
           | None => None
           end
  end.

(** [s.split(sep, 1)] *)
Definition split_once (sep : ascii) (s : string) : list string :=
  match partition_at sep s with
  | Some (a, b) => [a; b]
  | None => [s]
  end.

(** [all(p(c) for c in s)] *)
Fixpoint all_chars (p : ascii → bool) (s : string) : bool :=
  match s with
  | EmptyString => true
  | String c s' => p c && all_chars p s'
  end.

(** [s.isascii()]: every byte is below 128. *)
Definition isascii (s : string) : bool :=
  all_chars (λ c, match c with Ascii _ _ _ _ _ _ _ b7 => negb b7 end) s.

(** [secrets.compare_digest(a, b)] on [str]: a [TypeError] unless both are
    ASCII, else whether they are equal. *)
Definition compare_digest (a b : string) : outcome bool :=
  if isascii a && isascii b then Ret (bool_decide (a = b))
  else Raise TypeError.

(** [range(start, stop, step)] for a positive [step]; [stop] iterations
    are enough to reach [stop]. *)
Fixpoint range_from (fuel start stop step : nat) : list nat :=
  match fuel with
  | O => []
  | S fuel' =>
      if decide (start < stop)%nat
      then start :: range_from fuel' (start + step) stop step
      else []
  end.

Definition range (start stop step : nat) : list nat :=
  range_from stop start stop step.

(** [b[i:j]] for [0 <= i <= j] *)
Definition slice {A} (b : list A) (i j : nat) : list A :=
  take (j - i) (drop i b).
End PyMore.

(** ** The user service: accounts, dictionary identifiers, update endpoint
    ([docker/user/main.py]) *)

Module Accounts.
Import Py PyMore.

(** [hashlib.sha256(data).hexdigest()] *)
Class Hashlib := {
  sha256_hexdigest : bytes → string;
}.

(** [str.encode()]: strings are byte strings already. *)
Definition encode (s : string) : bytes := String.list_byte_of_string s.

(** [hash_password]; [token_hex] is what [secrets.token_hex(16)] returns
    when the salt is not given. *)
Definition hash_password `{!Hashlib} (token_hex : string) (password : string)
    (salt : option string) : string :=
  let salt := match salt with Some s => s | None => token_hex end in
  let digest := sha256_hexdigest (encode (salt +:+ ":" +:+ password)) in
  salt +:+ ":" +:+ digest.

(** [verify_password]; the salt is given to [hash_password], so no token
    is drawn. *)
Definition verify_password `{!Hashlib} (stored password : string)
    : outcome bool :=
  let parts := split_once ":" stored in
  if decide (length parts ≠ 2%nat) then Ret false
  else
    let salt := hd EmptyString parts in
    compare_digest stored (hash_password EmptyString password (Some salt)).

(** A digest that is the length of its input in unary, for examples. *)
Definition unary_digest : Hashlib :=
  {| sha256_hexdigest data := String.concat "" (replicate (length data) "a"%string) |}.
End Accounts.

Module DictIds.
Import Py PyMore.

(** The character class [[a-zA-Z0-9_\-]]. *)
Definition id_char (c : ascii) : bool :=
  let n := N_of_ascii c in
  ((48 <=? n) && (n <=? 57) || (65 <=? n) && (n <=? 90)
   || (97 <=? n) && (n <=? 122) || (n =? 95) || (n =? 45))%N.

(** The line feed character. *)
Definition is_newline (c : ascii) : bool := bool_decide (c = "010"%char).

(** The text [$] leaves to match: without [re.MULTILINE], [$] matches at
    the end of the string and just before a newline that ends it. *)
Fixpoint before_final_newline (s : string) : string :=
  match s with
  | EmptyString => EmptyString
  | String c EmptyString =>
      if decide (c = "010"%char) then EmptyString else s
  | String c s' => String c (before_final_newline s')
  end.

(** [bool(re.match(r"^[a-zA-Z0-9_\-]{1,64}$", dict_id))] *)
Definition validate_dict_id (dict_id : string) : bool :=
  let body := before_final_newline dict_id in
  bool_decide (1 ≤ String.length body ≤ 64)%nat && all_chars id_char body.

(** [dict_dir]: [DICTS_PATH / dict_id] *)
Definition dict_dir (DICTS_PATH : Api.PurePath) (dict_id : string)
    : Api.PurePath :=
  Api.truediv DICTS_PATH dict_id.

(** [METADATA_REQUIRED_KEYS] *)
Definition METADATA_REQUIRED_KEYS : gset string :=
  {[ "id"%string; "name"%string; "source_language"%string;
     "target_language"%string ]}.

(** [validate_metadata_keys] on the items of the metadata object. *)
Definition validate_metadata_keys (meta : list (string * Json.value))
    : list string :=
  sorted (METADATA_REQUIRED_KEYS ∖ list_to_set meta.*1).
End DictIds.

Module Updates.
Import Py User.

(** [SELECT DISTINCT version, message]: one copy of each pair, kept where
    it first occurs. *)
Fixpoint distinct (l : list (Z * string)) : list (Z * string) :=
  match l with
  | [] => []
  | x :: l' => x :: filter (λ y, y ≠ x) (distinct l')
  end.

(** [_get_history_between]: the [{"v": ..., "m": ...}] pairs; the query
    binds the same two bounds as the one of [_compute_required_files]. *)
Definition _get_history_between (db : version_history) (d : string)
    (from_ver to_ver : Z) : outcome (list (Z * string)) :=
  rows ← select_window db d from_ver to_ver;
  Ret (distinct ((λ r, (version r, message r)) <$> rows)).

Record UpdateResponse := {
  resp_dict_id : string;
  resp_from : Z;
  resp_to : Z;
  history : list (Z * string);
  required : manifest;
}.

(** [get_updates]; [dict_exists] is [dict_dir(dict_id).exists()]. *)
Definition get_updates (dict_exists : bool) (db : version_history)
    (d : string) (from_ver : Z) (to_ver : option Z) : outcome UpdateResponse :=
  if negb dict_exists then Raise (HTTPException 404)
  else
    let to_ver :=
      match to_ver with
      | None =>
          match select_max_version db d with
          | Some m => Some m
          | None => Some 0
          end
      | Some t => Some t
      end in
    history ← _get_history_between db d from_ver (or_zero to_ver);
    required ← _compute_required_files db d from_ver (or_zero to_ver);
    Ret {| resp_dict_id := d; resp_from := from_ver;
           resp_to := or_zero to_ver;
           history := history; required := required |}.
End Updates.

(** ** The API service: streaming, counts and downloads
    ([docker/api/main.py]) *)

Module Streaming.
Import Py PyMore Api.

(** The chunk size of every stream: 64 KiB. *)
Definition chunk_size : nat := Z.to_nat 65536.
#[global] Arguments chunk_size : simpl never.

(** The [while True] loop of [file_iterator]: [f.read(65536)] takes the
    next bytes of the member, and the loop ends at the first empty chunk.
    One iteration more than there are bytes is enough. *)
Fixpoint read_loop (fuel : nat) (remaining : bytes) : list bytes :=
  match fuel with
  | O => []
  | S fuel' =>
      let chunk := take chunk_size remaining in
      match chunk with
      | [] => []
      | _ => chunk :: read_loop fuel' (drop chunk_size remaining)
      end
  end.

(** [file_iterator]: the chunks the stream yields when the member is read
    to its end; for a member that cannot be, the exception that ends the
    stream: [zf.open] raises it, or one of the reads does after the chunks
    the archive library could still hand out, which are not recorded
    here. *)
Definition file_iterator (zf : ZipFile) (target_path : string)
    : outcome (list bytes) :=
  data ← read zf target_path;
  Ret (read_loop (S (length data)) data).

(** [audio_iterator] and [image_iterator]:
    [for i in range(0, len(blob_data), chunk_size):
       yield blob_data[i:i + chunk_size]] *)
Definition audio_iterator (blob_data : bytes) : list bytes :=
  (λ i, slice blob_data i (i + chunk_size))
    <$> range 0 (length blob_data) chunk_size.

(** [get_file_from_zip]: the handler returns a streaming response, or
    raises; the response carries what its stream yields. *)
Definition get_file_from_zip (disk : string → option ZipOnDisk)
    (c : ZipCaches) (zip_path file_path : string)
    : outcome (outcome (list bytes)) * ZipCaches :=
  let '(r, c) := get_zip_index disk c zip_path in
  match r with
  | Raise (HTTPException status) => (Raise (HTTPException status), c)
  | Raise _ => (Raise (HTTPException 500), c)
  | Ret zip_index =>
      match zip_index !! file_path with
      | None => (Raise (HTTPException 404), c)
      | Some target_path =>
          let cache_key := zip_path in
          match _zip_file_cache c !! cache_key with
          | None => (Raise (HTTPException 500), c)
          | Some zf => (Ret (file_iterator zf target_path), c)
          end
      end
  end.

(** [count_files_in_zip_index] *)
Definition count_files_in_zip_index (disk : string → option ZipOnDisk)
    (c : ZipCaches) (zip_path : string) : Z * ZipCaches :=
  let cache_key := zip_path in
  match _zip_file_count_cache c !! cache_key with
  | Some n => (n, c)
  | None =>
      let '(r, c) := get_zip_index disk c zip_path in
      match r with
      | Ret _ => (default 0 (_zip_file_count_cache c !! cache_key), c)
      | Raise _ => (0, c)
      end
  end.

(** [ALLOWED_FILES]: media type and cache lifetime of each file that may
    be downloaded. *)
Definition ALLOWED_FILES : gmap string (string * Z) :=
  {[ "logo.png"%string := ("image/png"%string, 2592000);
     "metadata.json"%string := ("application/json"%string, 86400);
     "dictionary.db"%string := ("application/vnd.sqlite3"%string, 86400);
     "media.db"%string := ("application/vnd.sqlite3"%string, 2592000) ]}.

Record Download := {
  served_path : PurePath;
  media_type : string;
  max_age : Z;
  attachment_name : string;
}.

(** [download_file]; [path_exists] is [Path.exists]. *)
Definition download_file (DICTIONARIES_PATH : PurePath)
    (path_exists : PurePath → bool) (dict_id filename : string)
    : outcome Download :=
  match ALLOWED_FILES !! filename with
  | None => Raise (HTTPException 400)
  | Some (media_type, max_age) =>
      let file_path := truediv (truediv DICTIONARIES_PATH dict_id) filename in
      if negb (path_exists file_path) then Raise (HTTPException 404)
      else Ret {| served_path := file_path; media_type := media_type;
                  max_age := max_age; attachment_name := filename |}
  end.
End Streaming.

Module CacheSpec.
Import Py Api.

(** Every archive with a cached handle has a cached index, modification
    time and file count. *)
Definition caches_consistent (c : ZipCaches) : Prop :=
  ∀ key, is_Some (_zip_file_cache c !! key) →
         is_Some (_zip_index_cache c !! key)
         ∧ is_Some (_zip_file_mtime_cache c !! key)
         ∧ is_Some (_zip_file_count_cache c !! key).

(** Every cached index whose cached modification time is that of the file
    on disk is the index of the archive on disk. *)
Definition caches_fresh (disk : string → option ZipOnDisk) (c : ZipCaches)
    : Prop :=
  ∀ key f,
    is_Some (_zip_file_cache c !! key) →
    disk key = Some f →
    _zip_file_mtime_cache c !! key = Some (st_mtime f) →
    ∃ zf, opened f = Ret zf
          ∧ _zip_index_cache c !! key = Some (build_index (namelist zf)).

(** What the four caches hold for one archive. *)
Definition cached_for (c : ZipCaches) (key : string)
    : option ZipFile * option (gmap string string) * option Z * option Z :=
  (_zip_file_cache c !! key, _zip_index_cache c !! key,
   _zip_file_mtime_cache c !! key, _zip_file_count_cache c !! key).

(** The caches of a process that has served nothing yet. *)
Definition no_archives_cached : ZipCaches :=
  {| _zip_file_cache := ∅; _zip_index_cache := ∅;
     _zip_file_mtime_cache := ∅; _zip_file_count_cache := ∅ |}.

(** The number of non-directory names of an archive. *)
Definition file_entries (names : list string) : Z :=
  Z.of_nat (length (filter IndexSpec.is_file_entry names)).

(** A disk that holds one archive, [audios.zip]. *)
Definition one_archive (mtime : Z) (zf : ZipFile) : string → option ZipOnDisk :=
  λ p, if decide (p = "audios.zip")
       then Some {| st_mtime := mtime; opened := Ret zf |} else None.

(** The members of an archive whose file the migration stores under a
    name. *)
Definition stored_as (key : string) (m : ZipMember) : Prop :=
  is_dir m = false ∧ last_item (split "/" (filename m)) = key.

#[global] Instance stored_as_dec key m : Decision (stored_as key m).
Proof. unfold stored_as. apply _. Defined.

(** What the chunks of a stream have in common: put together they are
    the data, none is empty or longer than the chunk size, and all but the
    last are full. *)
Definition well_chunked (data : bytes) (chunks : list bytes) : Prop :=
  concat chunks = data
  ∧ Forall (λ ch, 0 < length ch ≤ Streaming.chunk_size)%nat chunks
  ∧ ∀ i ch, chunks !! i = Some ch → (S i < length chunks)%nat →
            length ch = Streaming.chunk_size.

(** The bytes of the member an index entry names, when it names one that
    can be read. *)
Definition migrated_content (zf : ZipFile) (name : option string)
    : option bytes :=
  match name with
  | Some n =>
      match read zf n with
      | Ret data => Some data
      | Raise _ => None
      end
  | None => None
  end.


End CacheSpec.

(** ** Properties of the version ledger and the delta resolver *)

Module UserProps.
Import Py User ManifestSpec.

(** *** The ledger query *)

Lemma insert_by_version_perm r l : insert_by_version r l ≡ₚ r :: l.
Proof.
  induction l as [|x l IH]; simpl; [done|].
  case_decide; [done|]. rewrite IH. apply Permutation_swap.
Qed.

Lemma order_by_version_perm l : order_by_version l ≡ₚ l.
Proof.
  induction l as [|x l IH]; simpl; [done|].
  by rewrite insert_by_version_perm, IH.
Qed.

Lemma insert_by_version_sorted r l :
  Sorted version_le l → Sorted version_le (insert_by_version r l).
Proof.
  induction 1 as [|x l Hs IH Hhd]; simpl.
  - by repeat constructor.
  - case_decide as Hle.
    + constructor; [by constructor|]. by constructor.
    + constructor; [done|].
      destruct Hhd as [|y l Hxy]; simpl.
      * constructor. unfold version_le. lia.
      * case_decide; constructor; unfold version_le in *; lia.
Qed.

Lemma order_by_version_sorted l : Sorted version_le (order_by_version l).
Proof.
  induction l; simpl; [constructor|]. by apply insert_by_version_sorted.
Qed.

Lemma window_rows_elem db d f t r :
  r ∈ window_rows db d f t ↔ r ∈ db ∧ in_window d f t r.
Proof.
  unfold window_rows. rewrite order_by_version_perm, list_elem_of_filter.
  tauto.
Qed.

Lemma window_rows_empty db d f t :
  t ≤ f → window_rows db d f t = [].
Proof.
  intros Hft. unfold window_rows.
  induction db as [|r db IH]; [done|].
  rewrite filter_cons. case_decide as Hw; [|done].
  destruct Hw as (_ & ? & ?). lia.
Qed.

(** The query runs when both bounds can be bound, and raises before it
    runs otherwise. *)
Lemma select_window_bound db d f t :
  Sqlite.int64 f → Sqlite.int64 t →
  select_window db d f t = Ret (window_rows db d f t).
Proof.
  intros Hf Ht. unfold select_window, Sqlite.bind_int.
  by rewrite !decide_True by done.
Qed.

Lemma select_window_overflow db d f t :
  ¬ (Sqlite.int64 f ∧ Sqlite.int64 t) →
  select_window db d f t = Raise OverflowError.
Proof.
  intros Hno. unfold select_window, Sqlite.bind_int.
  destruct (decide (Sqlite.int64 f)); [|done].
  destruct (decide (Sqlite.int64 t)); [|done].
  by destruct Hno.
Qed.

Lemma compute_required_files_overflow db d f t :
  ¬ (Sqlite.int64 f ∧ Sqlite.int64 t) →
  _compute_required_files db d f t = Raise OverflowError.
Proof.
  intros Hno. unfold _compute_required_files.
  by rewrite select_window_overflow.
Qed.

(** *** The scan *)

Lemma keys_setitem (k : Z) (d : odict Z unit) :
  keys (setitem k () d) = add_once k (keys d).
Proof.
  unfold add_once, keys. induction d as [|[k' []] d IH].
  - done.
  - cbn [setitem fmap list_fmap fst].
    destruct (decide (k' = k)) as [->|Hk]; cbn [fmap list_fmap fst].
    + rewrite decide_True; [done|]. by left.
    + rewrite IH. destruct (decide (k ∈ d.*1)) as [Hin|Hin].
      * rewrite decide_True; [done|]. by right.
      * rewrite decide_False; [done|].
        intros [?|?]%elem_of_cons; congruence.
Qed.

Lemma add_once_NoDup {A} `{EqDecision A} (x : A) l :
  NoDup l → NoDup (add_once x l).
Proof.
  intros Hl. unfold add_once. case_decide; [done|].
  apply NoDup_app. split_and!; [done| |apply NoDup_singleton].
  intros y Hy ->%list_elem_of_singleton. done.
Qed.

Lemma add_once_elem {A} `{EqDecision A} (x y : A) l :
  y ∈ add_once x l ↔ y = x ∨ y ∈ l.
Proof.
  unfold add_once. case_decide.
  - split; [by right|]. by intros [->|?].
  - rewrite elem_of_app, list_elem_of_singleton. tauto.
Qed.

Lemma add_once_to_set (x : string) l :
  list_to_set (add_once x l) =@{gset string} {[ x ]} ∪ list_to_set l.
Proof.
  apply set_eq. intros y.
  rewrite elem_of_union, !elem_of_list_to_set, add_once_elem. set_solver.
Qed.

Lemma scan_row_agrees st a r :
  (change_type r = "entry" → is_Some (entry_id r)) →
  agrees st a →
  ∃ st', scan_row st r = Ret st' ∧ agrees st' (step a r).
Proof.
  intros Hid (Hf & Hnf & He & Hne). unfold scan_row, step.
  destruct (decide (change_type r = "file")) as [Hfile|Hfile].
  - destruct (decide (file_name r = "dictionary.db")); eexists;
      (split; [done|]); unfold agrees; simpl;
      rewrite add_once_to_set, Hf;
      split_and!; auto using add_once_NoDup, NoDup_nil_2.
  - destruct (decide (change_type r = "entry")) as [Hentry|Hentry].
    + destruct (Hid Hentry) as [k ->]. eexists. split; [done|].
      unfold agrees; simpl. rewrite keys_setitem, He.
      split_and!; auto using add_once_NoDup.
    + by exists st.
Qed.

Lemma scan_rows_agrees rows : ∀ st a,
  (∀ r, r ∈ rows → change_type r = "entry" → is_Some (entry_id r)) →
  agrees st a →
  ∃ st', scan_rows st rows = Ret st' ∧ agrees st' (foldl step a rows).
Proof.
  induction rows as [|r rows IH]; intros st a Hid Hag; simpl.
  - by exists st.
  - destruct (scan_row_agrees st a r) as (st1 & -> & Hag1); [|done|].
    { apply Hid. by left. }
    simpl. apply IH; [|done]. intros r' ?. apply Hid. by right.
Qed.

Lemma sorted_list_to_set (l : list string) :
  NoDup l → sorted (list_to_set l) = merge_sort String.le l.
Proof.
  intros Hl. unfold sorted.
  apply (Sorted_unique String.le); [apply Sorted_merge_sort, _..|].
  by rewrite !merge_sort_Permutation, elements_list_to_set.
Qed.

Lemma scan_snoc rows r : scan (rows ++ [r]) = step (scan rows) r.
Proof. unfold scan. by rewrite foldl_app. Qed.

Lemma scan_NoDup rows :
  NoDup (required_files (scan rows)) ∧ NoDup (required_entries (scan rows)).
Proof.
  induction rows as [|r rows [IHf IHe]] using rev_ind.
  - split; apply NoDup_nil_2.
  - rewrite scan_snoc. unfold step.
    repeat (case_decide || case_match); simpl;
      auto using add_once_NoDup, NoDup_nil_2.
Qed.

(** A file is required exactly when a [file] record of the window names
    it. *)
Lemma manifest_files_spec rows x :
  x ∈ files (manifest_of rows) ↔
  ∃ r, r ∈ rows ∧ change_type r = "file" ∧ file_name r = x.
Proof.
  unfold manifest_of; simpl. rewrite merge_sort_Permutation.
  induction rows as [|r rows IH] using rev_ind.
  - simpl. rewrite elem_of_nil. split; [done|].
    by intros (? & ?%elem_of_nil & _).
  - rewrite scan_snoc.
    assert (∀ P : VersionRow → Prop,
      (∃ r', r' ∈ rows ++ [r] ∧ P r') ↔ P r ∨ ∃ r', r' ∈ rows ∧ P r') as Hex.
    { intros P. setoid_rewrite elem_of_app.
      setoid_rewrite list_elem_of_singleton. split.
        - intros (r' & [?| ->] & ?); eauto.
        - intros [?|(r' & ? & ?)]; eauto. }
    rewrite Hex, <-IH. unfold step.
    repeat (case_decide || case_match); simpl;
      rewrite ?add_once_elem; intuition (subst; auto; congruence).
Qed.

(** An entry is required exactly when an [entry] record of the window
    names it and no later record of the window replaces the primary
    store. *)
Lemma manifest_entries_spec rows k :
  k ∈ entries (manifest_of rows) ↔
  ∃ l1 r l2, rows = l1 ++ r :: l2 ∧ change_type r = "entry"
             ∧ entry_id r = Some k ∧ ∀ r', r' ∈ l2 → ¬ replaces_store r'.
Proof.
  unfold manifest_of; simpl.
  induction rows as [|r rows IH] using rev_ind.
  - simpl. rewrite elem_of_nil. split; [done|].
    intros (l1 & ? & ? & Hnil & _). by destruct l1.
  - rewrite scan_snoc.
    assert (∀ l1 r0 l2, rows ++ [r] = l1 ++ r0 :: l2 →
            (l2 = [] ∧ r0 = r ∧ l1 = rows)
            ∨ ∃ l2', l2 = l2' ++ [r] ∧ rows = l1 ++ r0 :: l2') as Hsplit.
    { intros l1 r0 l2 Heq.
      destruct l2 as [|y l2 _] using rev_ind.
      - apply app_inj_tail in Heq as [-> ->]. by left.
      - right. exists l2.
        change (l1 ++ r0 :: l2 ++ [y]) with (l1 ++ (r0 :: l2) ++ [y]) in Heq.
        rewrite app_assoc in Heq.
        apply app_inj_tail in Heq as [-> ->]. done. }
    unfold step.
    destruct (decide (change_type r = "file")) as [Hfile|Hfile]; simpl.
    + destruct (decide (file_name r = "dictionary.db")) as [Hdb|Hdb].
      * rewrite elem_of_nil. split; [done|].
        intros (l1 & r0 & l2 & Heq & Hent & _ & Hlater).
        destruct (Hsplit _ _ _ Heq) as [(-> & -> & ->)|(l2' & -> & ->)].
        -- congruence.
        -- apply (Hlater r); [|done].
           rewrite elem_of_app, list_elem_of_singleton. by right.
      * rewrite IH. split.
        -- intros (l1 & r0 & l2 & -> & Hent & Hk & Hlater).
           exists l1, r0, (l2 ++ [r]). split_and!; [|done..|].
           { by rewrite <-app_assoc. }
           intros r' [?| ->%list_elem_of_singleton]%elem_of_app; [auto|].
           intros [_ ?]. done.
        -- intros (l1 & r0 & l2 & Heq & Hent & Hk & Hlater).
           destruct (Hsplit _ _ _ Heq) as [(-> & -> & ->)|(l2' & -> & ->)].
           { congruence. }
           exists l1, r0, l2'. split_and!; [done..|].
           intros r' ?. apply Hlater. rewrite elem_of_app. by left.
    + destruct (decide (change_type r = "entry")) as [Hentry|Hentry].
      * assert ((∃ l1 r0 l2, rows ++ [r] = l1 ++ r0 :: l2
                   ∧ change_type r0 = "entry" ∧ entry_id r0 = Some k
                   ∧ ∀ r', r' ∈ l2 → ¬ replaces_store r')
                ↔ entry_id r = Some k
                  ∨ k ∈ required_entries (scan rows)) as ->.
        { rewrite IH. split.
          - intros (l1 & r0 & l2 & Heq & Hent & Hk & Hlater).
            destruct (Hsplit _ _ _ Heq) as [(-> & -> & ->)|(l2' & -> & ->)];
              [by left|right].
            exists l1, r0, l2'. split_and!; [done..|].
            intros r' ?. apply Hlater. rewrite elem_of_app. by left.
          - intros [Hk|(l1 & r0 & l2 & -> & Hent & Hk & Hlater)].
            + exists rows, r, []. split_and!; [done..|].
              by intros ? ?%elem_of_nil.
            + exists l1, r0, (l2 ++ [r]). split_and!; [|done..|].
              { by rewrite <-app_assoc. }
              intros r' [?| ->%list_elem_of_singleton]%elem_of_app; [auto|].
              intros [? _]. congruence. }
        destruct (entry_id r) as [k'|]; simpl.
        -- rewrite add_once_elem. intuition congruence.
        -- intuition congruence.
      * rewrite IH. split.
        -- intros (l1 & r0 & l2 & -> & Hent & Hk & Hlater).
           exists l1, r0, (l2 ++ [r]). split_and!; [|done..|].
           { by rewrite <-app_assoc. }
           intros r' [?| ->%list_elem_of_singleton]%elem_of_app; [auto|].
           intros [? _]. congruence.
        -- intros (l1 & r0 & l2 & Heq & Hent & Hk & Hlater).
           destruct (Hsplit _ _ _ Heq) as [(-> & -> & ->)|(l2' & -> & ->)].
           { congruence. }
           exists l1, r0, l2'. split_and!; [done..|].
           intros r' ?. apply Hlater. rewrite elem_of_app. by left.
Qed.

(** The scenario of the design document, run on the code. *)
Example en_fr_0_2 :
  _compute_required_files en_fr "en-fr" 0 2
  = Ret {| files := ["dictionary.db"; "metadata.json"];
           entries := [42; 43] |}.
Proof. vm_compute. reflexivity. Qed.

Example en_fr_0_3 :
  _compute_required_files en_fr "en-fr" 0 3
  = Ret {| files := ["dictionary.db"; "metadata.json"]; entries := [] |}.
Proof. vm_compute. reflexivity. Qed.

Example en_fr_2_3 :
  _compute_required_files en_fr "en-fr" 2 3
  = Ret {| files := ["dictionary.db"]; entries := [] |}.
Proof. vm_compute. reflexivity. Qed.

(** An [entry] record without an identifier makes [int(None)] raise. *)
Example entry_without_identifier :
  _compute_required_files
    [{| dict_id := "d"; version := 1; message := "m";
        change_type := "entry"; file_name := "dictionary.db";
        entry_id := None |}] "d" 0 1
  = Raise TypeError.
Proof. vm_compute. reflexivity. Qed.

(** [record_version] writes its row exactly when the version and the
    entry identifier can be bound. *)
Lemma record_version_bound db d ver msg chg fname eid :
  Sqlite.int64 ver → (∀ k, eid = Some k → Sqlite.int64 k) →
  record_version db d ver msg chg fname eid
  = Ret (db ++ [{| dict_id := d; version := ver; message := msg;
                   change_type := chg; file_name := fname;
                   entry_id := eid |}]).
Proof.
  intros Hver Heid. unfold record_version, Sqlite.bind_int.
  rewrite decide_True by done. destruct eid as [k|]; [|done].
  simpl. unfold Sqlite.bind_int. by rewrite decide_True by auto.
Qed.

Lemma record_version_inv db d ver msg chg fname eid db' :
  record_version db d ver msg chg fname eid = Ret db' →
  Sqlite.int64 ver ∧ (∀ k, eid = Some k → Sqlite.int64 k)
  ∧ db' = db ++ [{| dict_id := d; version := ver; message := msg;
                    change_type := chg; file_name := fname;
                    entry_id := eid |}].
Proof.
  unfold record_version, Sqlite.bind_int.
  destruct (decide (Sqlite.int64 ver)) as [Hver|]; [|done].
  destruct eid as [k|]; simpl.
  - unfold Sqlite.bind_int.
    destruct (decide (Sqlite.int64 k)) as [Hk|]; [|done].
    intros [= <-]. split_and!; [done| |done]. by intros ? [= <-].
  - intros [= <-]. done.
Qed.

Lemma record_version_overflow db d ver msg chg fname eid :
  ¬ Sqlite.int64 ver →
  record_version db d ver msg chg fname eid = Raise OverflowError.
Proof.
  intros Hver. unfold record_version, Sqlite.bind_int.
  by rewrite decide_False by done.
Qed.

(** The writers of the ledger keep every [entry] row identified, and write
    only versions the ledger can hold. *)
Lemma record_version_identified db d ver msg chg fname eid db' :
  record_version db d ver msg chg fname eid = Ret db' →
  entries_identified db → (chg = "entry" → is_Some eid) →
  entries_identified db'.
Proof.
  intros (_ & _ & ->)%record_version_inv Hdb Heid r.
  intros [Hr| ->%list_elem_of_singleton]%elem_of_app; [by apply Hdb|].
  done.
Qed.

Lemma record_version_storable db d ver msg chg fname eid db' :
  record_version db d ver msg chg fname eid = Ret db' →
  versions_storable db → versions_storable db'.
Proof.
  intros (Hver & _ & ->)%record_version_inv Hdb r.
  intros [Hr| ->%list_elem_of_singleton]%elem_of_app; [by apply Hdb|].
  done.
Qed.

Lemma record_files_identified db d ver msg fnames :
  entries_identified db →
  entries_identified (record_files db d ver msg fnames).2.
Proof.
  revert db. induction fnames as [|f fnames IH]; intros db Hdb; simpl; [done|].
  destruct (record_version db d ver msg "file" f None) as [db'|e] eqn:Hrec;
    [|done].
  eapply IH, record_version_identified; done.
Qed.

Lemma record_entries_identified db d ver msg eids :
  entries_identified db →
  entries_identified (record_entries db d ver msg eids).2.
Proof.
  revert db. induction eids as [|k eids IH]; intros db Hdb; simpl; [done|].
  destruct (record_version db d ver msg "entry" "dictionary.db" (Some k))
    as [db'|e] eqn:Hrec; [|done].
  eapply IH, record_version_identified; [done..|]. by eexists.
Qed.

Lemma record_files_storable db d ver msg fnames :
  versions_storable db →
  versions_storable (record_files db d ver msg fnames).2.
Proof.
  revert db. induction fnames as [|f fnames IH]; intros db Hdb; simpl; [done|].
  destruct (record_version db d ver msg "file" f None) as [db'|e] eqn:Hrec;
    [|done].
  eapply IH, record_version_storable; done.
Qed.

Lemma record_entries_storable db d ver msg eids :
  versions_storable db →
  versions_storable (record_entries db d ver msg eids).2.
Proof.
  revert db. induction eids as [|k eids IH]; intros db Hdb; simpl; [done|].
  destruct (record_version db d ver msg "entry" "dictionary.db" (Some k))
    as [db'|e] eqn:Hrec; [|done].
  eapply IH, record_version_storable; done.
Qed.

Lemma en_fr_identified : entries_identified en_fr.
Proof.
  intros r Hr Hentry. unfold en_fr in Hr.
  repeat (apply elem_of_cons in Hr as [->|Hr]); try done.
  by apply elem_of_nil in Hr.
Qed.

(** The manifest of a window whose bounds can be bound, on a ledger whose
    entry records carry their identifier. *)
Lemma compute_required_files_scan db d from_ver to_ver :
  entries_identified db →
  Sqlite.int64 from_ver → Sqlite.int64 to_ver →
  _compute_required_files db d from_ver to_ver
  = Ret (manifest_of (window_rows db d from_ver to_ver)).
Proof.
  intros Hid Hf Ht. unfold _compute_required_files.
  rewrite select_window_bound by done.
  set (rows := window_rows db d from_ver to_ver).
  destruct (scan_rows_agrees rows
              {| files_needed := ∅; entries_needed := [] |}
              {| required_files := []; required_entries := [] |})
    as (st & Hscan & Hf' & Hnf & He & _).
  - intros r Hr. apply Hid. by apply window_rows_elem in Hr as [? _].
  - split_and!; simpl; auto using NoDup_nil_2.
  - simpl. rewrite Hscan. simpl. unfold manifest_of, scan.
    rewrite Hf', He. by rewrite sorted_list_to_set.
Qed.

(** The window from 0 to the first integer that cannot be bound holds
    every record of the scenario's ledger, and the query for it raises. *)
Example en_fr_beyond_int64 :
  window_rows en_fr "en-fr" 0 beyond_int64 = en_fr
  ∧ _compute_required_files en_fr "en-fr" 0 beyond_int64
    = Raise OverflowError.
Proof. split; vm_compute; reflexivity. Qed.

(** C1 as the design document states it, for every version window, fails:
    for the window from 0 to 2^63 the ledger of the scenario holds
    records, and the query raises instead of returning their scan. *)
Lemma C1_every_window_fails :
  ¬ manifest_is_ordered_scan en_fr "en-fr" 0 beyond_int64.
Proof.
  intros (rows & _ & _ & Hrun).
  rewrite (proj2 en_fr_beyond_int64) in Hrun. discriminate.
Qed.

(** C1 (amended): for every dictionary and every version window whose
    bounds are signed 64-bit integers, the manifest is the result of
    scanning the ledger records of the window in ascending version order
    (records of one update batch share a version and are scanned in ledger
    order): a [file] record adds its file name to the required files, a
    [file] record for [dictionary.db] clears the required entries gathered
    so far, an [entry] record adds its identifier once, at its first-seen
    position; the result lists the required files sorted and the required
    entries in first-seen order.  For a bound outside that range the query
    raises [OverflowError] and no manifest is computed. *)
Theorem C1_manifest_is_ordered_scan db d from_ver to_ver :
  entries_identified db →
  (Sqlite.int64 from_ver → Sqlite.int64 to_ver →
   ∃ rows,
     select_window db d from_ver to_ver = Ret rows
     ∧ rows ≡ₚ filter (in_window d from_ver to_ver) db
     ∧ Sorted version_le rows
     ∧ _compute_required_files db d from_ver to_ver = Ret (manifest_of rows)
     ∧ Sorted String.le (files (manifest_of rows))
     ∧ NoDup (files (manifest_of rows))
     ∧ NoDup (entries (manifest_of rows)))
  ∧ (¬ (Sqlite.int64 from_ver ∧ Sqlite.int64 to_ver) →
     _compute_required_files db d from_ver to_ver = Raise OverflowError).
Proof.
  intros Hid. split.
  - intros Hf Ht. exists (window_rows db d from_ver to_ver).
    destruct (scan_NoDup (window_rows db d from_ver to_ver)) as [Hnf Hne].
    split_and!.
    + by apply select_window_bound.
    + apply order_by_version_perm.
    + apply order_by_version_sorted.
    + by apply compute_required_files_scan.
    + apply Sorted_merge_sort, _.
    + simpl. by rewrite merge_sort_Permutation.
    + done.
  - apply compute_required_files_overflow.
Qed.

Lemma C1_manifest_is_ordered_scan_witness :
  entries_identified en_fr
  ∧ Sqlite.int64 0 ∧ Sqlite.int64 3
  ∧ ∃ rows,
      select_window en_fr "en-fr" 0 3 = Ret rows
      ∧ _compute_required_files en_fr "en-fr" 0 3 = Ret (manifest_of rows).
Proof.
  assert (Sqlite.int64 0) as H0 by (unfold Sqlite.int64; lia).
  assert (Sqlite.int64 3) as H3 by (unfold Sqlite.int64; lia).
  split_and!; [exact en_fr_identified|done..|].
  destruct (proj1 (C1_manifest_is_ordered_scan en_fr "en-fr" 0 3
                     en_fr_identified) H0 H3)
    as (rows & Hsel & _ & _ & Hrun & _).
  exists rows. split; [exact Hsel|exact Hrun].
Defined.

(** C7 as the design document states it, for every pair of versions,
    fails: with both versions 2^63 the query raises. *)
Lemma C7_every_empty_window_fails :
  ¬ empty_window_is_noop en_fr "en-fr" beyond_int64 beyond_int64.
Proof.
  intros Hnoop. unfold empty_window_is_noop in Hnoop.
  assert (beyond_int64 >= beyond_int64) as Hge by lia.
  specialize (Hnoop Hge). vm_compute in Hnoop. discriminate.
Qed.

(** C7 (amended): for every dictionary and every pair of versions that are
    signed 64-bit integers with [from_version >= to_version], the manifest
    has no files and no entries, and is returned as a value, not raised as
    an error; when one of the two is outside that range the query raises
    [OverflowError]. *)
Theorem C7_empty_window db d from_ver to_ver :
  from_ver >= to_ver →
  (Sqlite.int64 from_ver → Sqlite.int64 to_ver →
   _compute_required_files db d from_ver to_ver
   = Ret {| files := []; entries := [] |})
  ∧ (¬ (Sqlite.int64 from_ver ∧ Sqlite.int64 to_ver) →
     _compute_required_files db d from_ver to_ver = Raise OverflowError).
Proof.
  intros Hge. split.
  - intros Hf Ht. unfold _compute_required_files.
    rewrite select_window_bound by done.
    rewrite window_rows_empty by lia. simpl.
    unfold sorted. by rewrite elements_empty.
  - intros Hno. unfold _compute_required_files.
    by rewrite select_window_overflow.
Qed.

Lemma C7_empty_window_witness :
  3 >= 3
  ∧ _compute_required_files en_fr "en-fr" 3 3
    = Ret {| files := []; entries := [] |}.
Proof.
  assert (Sqlite.int64 3) as H3 by (unfold Sqlite.int64; lia).
  assert (3 >= 3) as Hge by lia.
  split; [done|].
  apply (proj1 (C7_empty_window en_fr "en-fr" 3 3 Hge) H3 H3).
Defined.

(** *** The next version *)

Lemma select_max_version_None db d :
  select_max_version db d = None ↔ versions_of db d = [].
Proof.
  unfold versions_of. induction db as [|r db IH]; [done|].
  rewrite filter_cons. simpl. case_decide; [|done].
  split; [|done]. by repeat case_match.
Qed.

Lemma select_max_version_Some db d m :
  select_max_version db d = Some m →
  m ∈ versions_of db d ∧ ∀ v, v ∈ versions_of db d → v ≤ m.
Proof.
  unfold versions_of. revert m. induction db as [|r db IH]; intros m; [done|].
  rewrite filter_cons. simpl. case_decide; [|by apply IH].
  rewrite fmap_cons. setoid_rewrite elem_of_cons.
  destruct (select_max_version db d) as [m'|] eqn:Hmax.
  - intros [= <-]. destruct (IH m' eq_refl) as [Hin Hub]. split.
    + destruct (Z.max_spec (version r) m') as [[_ ->]|[_ ->]]; auto.
    + intros v [->|Hv]; [lia|]. apply Hub in Hv. lia.
  - intros [= <-]. apply select_max_version_None in Hmax.
    unfold versions_of in Hmax. rewrite Hmax. split; [by left|].
    intros v [->|Hv]; [lia|]. by apply elem_of_nil in Hv.
Qed.

(** C8: for every dictionary, [next_version] is one greater than the
    maximum version recorded for it in the ledger, and 1 when the ledger
    has no record of it. *)
Theorem C8_next_version db d :
  match versions_of db d with
  | [] => next_version db d = 1
  | _ :: _ =>
      ∃ m, m ∈ versions_of db d
           ∧ (∀ v, v ∈ versions_of db d → v ≤ m)
           ∧ next_version db d = m + 1
  end.
Proof.
  unfold next_version.
  destruct (select_max_version db d) as [m|] eqn:Hmax.
  - destruct (select_max_version_Some _ _ _ Hmax) as [Hin Hub].
    destruct (versions_of db d) as [|v vs] eqn:Hvs.
    { by apply elem_of_nil in Hin. }
    exists m. split_and!; [done..|].
    unfold or_zero. case_decide; by subst.
  - apply select_max_version_None in Hmax. by rewrite Hmax.
Qed.

Example next_version_en_fr : next_version en_fr "en-fr" = 4.
Proof. reflexivity. Qed.

Example next_version_fresh : next_version en_fr "fr-de" = 1.
Proof. reflexivity. Qed.
End UserProps.

(** ** Properties of the string primitives *)

Module PyProps.
Import Py.

Lemma split_nonempty sep s : split sep s ≠ [].
Proof.
  destruct s as [|c s]; simpl; [done|].
  case_decide; [done|]. by destruct (split sep s).
Qed.

Lemma last_item_cons w l : l ≠ [] → last_item (w :: l) = last_item l.
Proof. by destruct l. Qed.




(** The first segment of a split is a prefix of the string. *)
Lemma split_head_prefix sep s w ws :
  split sep s = w :: ws → String.prefix w s = true.
Proof.
  revert w ws. induction s as [|c s IH]; intros w ws; simpl.
  - by intros [= <- <-].
  - case_decide.
    + by intros [= <- <-].
    + pose proof (split_nonempty sep s).
      destruct (split sep s) as [|w0 ws0] eqn:Hs; [done|].
      intros [= <- <-]. simpl.
      destruct (ascii_dec c c); [|done]. by eapply IH.
Qed.

(** Every segment of a split occurs in the string. *)
Lemma split_contains sep s w : w ∈ split sep s → contains w s = true.
Proof.
  revert w. induction s as [|c s IH]; intros w; simpl.
  - by intros ->%list_elem_of_singleton.
  - case_decide as Hc.
    + intros [->|Hw]%elem_of_cons; [done|].
      rewrite (IH _ Hw). apply orb_true_r.
    + pose proof (split_nonempty sep s).
      destruct (split sep s) as [|w0 ws] eqn:Hs; [done|].
      intros [->|Hw]%elem_of_cons.
      * apply orb_true_iff. left. simpl.
        destruct (ascii_dec c c); [|done]. by eapply split_head_prefix.
      * rewrite (IH w); [apply orb_true_r|by right].
Qed.

(** The last segment of a name is empty only for the empty name and for
    names that end with the separator. *)
Lemma last_segment_empty sep s :
  endswith s sep = false → last_item (split sep s) = EmptyString →
  s = EmptyString.
Proof.
  induction s as [|c s IH]; [done|]. intros Hend Hlast. exfalso.
  pose proof (split_nonempty sep s) as Hne.
  simpl in Hlast. destruct (decide (c = sep)) as [->|Hc].
  - rewrite last_item_cons in Hlast by done.
    destruct s as [|c' s].
    + simpl in Hend. by rewrite bool_decide_eq_false in Hend.
    + by specialize (IH Hend Hlast).
  - destruct (split sep s) as [|w ws] eqn:Hs; [done|].
    destruct ws as [|w' ws]; [done|].
    rewrite last_item_cons in Hlast by done.
    destruct s as [|c' s]; [done|].
    rewrite <-(last_item_cons w) in Hlast by done.
    by specialize (IH Hend Hlast).
Qed.
End PyProps.

(** ** Properties of the archive index *)

Module IndexProps.
Import Py Api IndexSpec PyProps.

Lemma register_lookup name keys : ∀ index k,
  register name index keys !! k
  = if decide (k ∈ keys) then Some name else index !! k.
Proof.
  unfold register.
  induction keys as [|key keys IH]; intros index k; cbn [foldl].
  - rewrite decide_False; [done|]. apply not_elem_of_nil.
  - rewrite IH. destruct (decide (k ∈ keys)) as [Hin|Hnin].
    + rewrite decide_True; [done|]. by right.
    + destruct (decide (k = key)) as [->|Hne].
      * rewrite lookup_insert_eq, decide_True; [done|]. by left.
      * rewrite lookup_insert_ne by done.
        rewrite decide_False; [done|].
        intros [?|?]%elem_of_cons; done.
Qed.

Lemma index_name_register index name :
  index_name index name = register name index (registered_keys name).
Proof.
  unfold index_name, registered_keys, register.
  destruct (truthy_str _); repeat case_decide; reflexivity.
Qed.

Lemma registered_keys_variants name k :
  is_file_entry name → k ∈ registered_keys name ↔ k ∈ key_variants name.
Proof.
  intros Hfile.
  unfold registered_keys, key_variants, derived_keys, basename,
    tail_stripped, segments.
  set (parts := split "/" name).
  assert (truthy_str (last_item parts) = false → last_item parts = name)
    as Hempty.
  { intros Ht. assert (last_item parts = EmptyString) as Hl.
    { by destruct (last_item parts). }
    rewrite Hl. symmetry. by apply (last_segment_empty "/"). }
  destruct (truthy_str (last_item parts)) eqn:Ht;
    repeat case_decide; try lia;
    rewrite ?Hempty by done;
    repeat (setoid_rewrite elem_of_app || setoid_rewrite elem_of_cons
            || setoid_rewrite elem_of_nil);
    tauto.
Qed.

Lemma index_name_lookup index name k :
  is_file_entry name →
  index_name index name !! k
  = if decide (k ∈ key_variants name) then Some name else index !! k.
Proof.
  intros Hfile. rewrite index_name_register, register_lookup.
  destruct (decide (k ∈ registered_keys name)) as [Hin|Hnin].
  - rewrite decide_True; [done|]. by apply registered_keys_variants.
  - rewrite decide_False; [done|]. by rewrite <-registered_keys_variants.
Qed.

Lemma index_names_lookup names : ∀ index count k,
  (index_names index count names).1 !! k
  = match last (registrants names k) with
    | Some e => Some e
    | None => index !! k
    end.
Proof.
  unfold registrants.
  induction names as [|n names IH]; intros index count k; [done|].
  simpl. rewrite filter_cons.
  destruct (endswith n "/") eqn:Hdir.
  - rewrite decide_False; [apply IH|].
    unfold is_file_entry. intros [? _]. congruence.
  - rewrite IH, index_name_lookup by done.
    destruct (decide (k ∈ key_variants n)) as [Hin|Hnin].
    + rewrite decide_True by done. rewrite last_cons. by case_match.
    + rewrite decide_False; [done|]. tauto.
Qed.

(** On a cache miss the index [get_zip_index] returns and caches is the
    one built from the archive's name list. *)
Lemma get_zip_index_miss disk c zip_path f zf :
  disk zip_path = Some f → opened f = Ret zf →
  _zip_file_cache c !! zip_path = None →
  ∃ c', get_zip_index disk c zip_path = (Ret (build_index (namelist zf)), c')
        ∧ _zip_index_cache c' !! zip_path = Some (build_index (namelist zf))
        ∧ _zip_file_mtime_cache c' !! zip_path = Some (st_mtime f).
Proof.
  intros Hf Hzf Hmiss. unfold get_zip_index. rewrite Hf, Hmiss, Hzf.
  eexists. split; [done|]. simpl. by rewrite !lookup_insert_eq.
Qed.

(** On a stale cache entry the index is rebuilt the same way. *)
Lemma get_zip_index_stale disk c zip_path f zf old :
  disk zip_path = Some f → opened f = Ret zf →
  _zip_file_cache c !! zip_path = Some old →
  _zip_file_mtime_cache c !! zip_path ≠ Some (st_mtime f) →
  ∃ c', get_zip_index disk c zip_path = (Ret (build_index (namelist zf)), c')
        ∧ _zip_index_cache c' !! zip_path = Some (build_index (namelist zf))
        ∧ _zip_file_mtime_cache c' !! zip_path = Some (st_mtime f).
Proof.
  intros Hf Hzf Hold Hstale. unfold get_zip_index.
  rewrite Hf, Hold, Hzf, decide_False by done.
  eexists. split; [done|]. simpl. by rewrite !lookup_insert_eq.
Qed.

(** *** Collisions *)

Example colliding_basename :
  head (derivers colliding "x.mp3") = Some "a/x.mp3"
  ∧ build_index colliding !! "x.mp3" = Some "b/x.mp3".
Proof. split; vm_compute; reflexivity. Qed.

(** C2, as stated, fails: two entries with the same basename leave the
    later one under the contested key. *)
Lemma C2_first_wins_fails : ¬ first_wins colliding.
Proof.
  intros Hfirst.
  specialize (Hfirst "x.mp3" "a/x.mp3" (proj1 colliding_basename)).
  rewrite (proj2 colliding_basename) in Hfirst. discriminate.
Qed.

(** C2 (amended): when several archive entries register the same lookup
    key, the last one in enumeration order wins it: for every archive and
    every key, resolving the key yields the latest non-directory entry of
    the enumeration that registers it as its full path, its basename or a
    tail-stripped variant, and fails when there is none. *)
Theorem C2_last_wins names key :
  build_index names !! key = last (registrants names key).
Proof.
  unfold build_index. rewrite index_names_lookup, lookup_empty.
  by destruct (last (registrants names key)).
Qed.

(** *** Registration of an entry's keys *)

Lemma registrants_split l1 e l2 key :
  is_file_entry e → key ∈ key_variants e →
  registrants (l1 ++ e :: l2) key
  = registrants l1 key ++ e :: registrants l2 key.
Proof.
  intros Hfile Hkey. unfold registrants.
  rewrite filter_app, filter_cons. by rewrite decide_True.
Qed.

(** The scenario of the design document, run on the code. *)
Example word1_by_basename :
  build_index audios_archive !! "word1.mp3" = Some "media/audios/word1.mp3".
Proof. vm_compute. reflexivity. Qed.

Example word1_by_tail :
  build_index audios_archive !! "audios/word1.mp3"
  = Some "media/audios/word1.mp3".
Proof. vm_compute. reflexivity. Qed.

Example word1_by_full_path :
  build_index audios_archive !! "media/audios/word1.mp3"
  = Some "media/audios/word1.mp3".
Proof. vm_compute. reflexivity. Qed.

Example word1_key_variants :
  key_variants "media/audios/word1.mp3"
  = ["media/audios/word1.mp3"; "word1.mp3"; "audios/word1.mp3"; "word1.mp3"].
Proof. vm_compute. reflexivity. Qed.

(** A later entry can take over even the full path of an earlier one. *)
Example full_path_taken_over :
  build_index ["a/b.mp3"; "x/a/b.mp3"] !! "a/b.mp3" = Some "x/a/b.mp3".
Proof. vm_compute. reflexivity. Qed.

(** C3, as stated, fails: the basename of the first of two entries with
    the same basename resolves to the second. *)
Lemma C3_every_key_resolves_fails : ¬ every_key_resolves colliding.
Proof.
  intros Hall.
  assert (build_index colliding !! "x.mp3" = Some "a/x.mp3") as Hfirst.
  { apply Hall.
    - by left.
    - reflexivity.
    - vm_compute. right. left. }
  vm_compute in Hfirst. discriminate.
Qed.

(** C3 (amended): for every non-directory entry E of an archive, the built
    index holds E's full internal path, its basename, its tail-1 variant
    (at least two segments) and its tail-2 variant (at least three
    segments); each of these keys resolves to E's internal path unless a
    later entry of the enumeration registers the same key, in which case it
    resolves to such a later entry. *)
Theorem C3_keys_registered l1 e l2 key :
  is_file_entry e → key ∈ key_variants e →
  let index := build_index (l1 ++ e :: l2) in
  (index !! key = Some e
   ∨ ∃ e', e' ∈ l2 ∧ is_file_entry e' ∧ key ∈ key_variants e'
           ∧ index !! key = Some e')
  ∧ ((∀ e', e' ∈ l2 → is_file_entry e' → key ∉ key_variants e') →
     index !! key = Some e).
Proof.
  intros Hfile Hkey index.
  assert (index !! key = last (e :: registrants l2 key)) as Hlookup.
  { unfold index, build_index.
    rewrite index_names_lookup, lookup_empty.
    rewrite (registrants_split l1 e l2 key Hfile Hkey), last_app.
    rewrite last_cons. by destruct (last (registrants l2 key)). }
  rewrite Hlookup, last_cons. split.
  - destruct (last (registrants l2 key)) as [e'|] eqn:Hlast; [right|by left].
    exists e'. apply last_Some_elem_of in Hlast.
    apply list_elem_of_filter in Hlast as [[? ?] ?]. done.
  - intros Hnone.
    destruct (last (registrants l2 key)) as [e'|] eqn:Hlast; [|done].
    apply last_Some_elem_of in Hlast.
    apply list_elem_of_filter in Hlast as [[? ?] ?].
    by destruct (Hnone e').
Qed.

Lemma C3_keys_registered_witness :
  is_file_entry "media/audios/word1.mp3"
  ∧ "audios/word1.mp3"%string ∈ key_variants "media/audios/word1.mp3"
  ∧ build_index ([] ++ "media/audios/word1.mp3"%string :: [])
      !! "audios/word1.mp3" = Some "media/audios/word1.mp3".
Proof.
  assert (is_file_entry "media/audios/word1.mp3") as Hfile by reflexivity.
  assert ("audios/word1.mp3"%string ∈ key_variants "media/audios/word1.mp3")
    as Hkey.
  { rewrite word1_key_variants. right. right. left. }
  split_and!; [done..|].
  apply (C3_keys_registered [] _ [] _ Hfile Hkey).
  intros e' He'. by apply elem_of_nil in He'.
Defined.
End IndexProps.

(** ** Properties of the codec cache *)

Module CodecProps.
Import Py Zstd Api CodecSpec.

Section codec.
Context `{!Codec, !Json.Package}.

Lemma decompressor_of_row_context conn row :
  Sqlite.select_zstd_dict conn = Ret row →
  match decompressor_of_row row with
  | Ret dctx => dctx
  | Raise _ => plain
  end = context_for conn.
Proof.
  intros Hrow. unfold decompressor_of_row, context_for, training_blob, accepted.
  rewrite Hrow. destruct row as [[b|]|]; [|done..].
  destruct (truthy_bytes b); [|done].
  by destruct (load_dict b) as [[]|].
Qed.

(** When the database cannot be opened, no context is returned and nothing
    is cached. *)
Lemma get_zstd_decompressor_unreachable disk st dict_id :
  _zstd_decompressors st !! dict_id = None →
  (get_db_connection disk st dict_id).1 = None →
  ∃ st', get_zstd_decompressor disk st dict_id = (None, st')
         ∧ _zstd_decompressors st' !! dict_id = None.
Proof.
  intros Hmiss Hconn. unfold get_zstd_decompressor. rewrite Hmiss.
  destruct (get_db_connection disk st dict_id) as [conn st1] eqn:Hget.
  simpl in Hconn. subst conn. exists st1. split; [done|].
  unfold get_db_connection in Hget.
  repeat case_match; simplify_eq; done.
Qed.

(** C5 (amended): for every dictionary identifier that is already cached
    or whose dictionary database can be opened, [get_zstd_decompressor]
    returns a valid decompression context and caches it under the
    identifier: a cached context is returned as it is; on a miss the
    context is seeded with the stored training blob when one is present,
    non-empty and accepted by the codec library, and plain otherwise (a
    dictionary with no training blob is cached as a valid plain context,
    never as absent). *)
Theorem C5_context_cached_when_reachable disk st dict_id :
  is_Some (_zstd_decompressors st !! dict_id)
  ∨ is_Some (get_db_connection disk st dict_id).1 →
  ∃ dctx st',
    get_zstd_decompressor disk st dict_id = (Some dctx, st')
    ∧ _zstd_decompressors st' !! dict_id = Some dctx
    ∧ (∀ cached, _zstd_decompressors st !! dict_id = Some cached →
                 dctx = cached ∧ st' = st)
    ∧ (∀ conn, _zstd_decompressors st !! dict_id = None →
               (get_db_connection disk st dict_id).1 = Some conn →
               dctx = context_for conn).
Proof.
  intros Hreach. unfold get_zstd_decompressor.
  destruct (_zstd_decompressors st !! dict_id) as [cached|] eqn:Hcache.
  - exists cached, st. split_and!; [done..| |done].
    by intros ? [= <-].
  - destruct Hreach as [[? [=]]|[conn Hconn]].
    destruct (get_db_connection disk st dict_id) as [conn' st1] eqn:Hget.
    simpl in Hconn. subst conn'.
    eexists _, _. split_and!; [done| |done|].
    + simpl. apply lookup_insert_eq.
    + intros conn' _ [= <-].
      destruct (Sqlite.select_zstd_dict conn) as [row|e] eqn:Hrow.
      * by apply decompressor_of_row_context.
      * simpl. unfold context_for, training_blob. by rewrite Hrow.
Qed.

(** C4: [decompress_json_data] returns a value for every input blob and
    every decompression context, whatever the codec and the parser do: it
    tries the context first, falls back to the input as it is when the
    context raises, parses the bytes, and returns the empty structured
    value when the parse raises; it never raises. *)
Theorem C4_decompress_total data dctx :
  decompress_json_data data dctx
  = Ret (match data with
         | Some raw => fallback_chain raw dctx
         | None => Json.empty_dict
         end)
  ∧ ¬ raises (decompress_json_data data dctx).
Proof.
  assert (decompress_json_data data dctx
          = Ret (match data with
                 | Some raw => fallback_chain raw dctx
                 | None => Json.empty_dict
                 end)) as Heq.
  { unfold decompress_json_data, fallback_chain.
    destruct data as [raw|]; [|done].
    destruct dctx as [c|]; simpl.
    - destruct (decompress c raw) as [r|e]; simpl.
      + by destruct (Json.loads r).
      + by destruct (Json.loads raw).
    - by destruct (Json.loads raw). }
  split; [done|]. rewrite Heq. by intros [e ?].
Qed.

(** C6: compression round-trips through decompression.  Given a codec
    library that reverses itself and a parser that reads back what the
    serializer wrote for the value, compressing the serialized value with a
    training blob and decompressing with the context built from the same
    blob returns the value; plain structured bytes the context does not
    decompress return the value they encode; bytes that neither decompress
    to a parseable text nor parse return the empty structured value. *)
Theorem C6_round_trip :
  (∀ v zdict blob dctx,
     round_trips →
     Json.loads (Json.dumps v) = Ret v →
     User.compress_entry (Json.dumps v) zdict = Ret blob →
     decompressor_of_row (Some zdict) = Ret dctx →
     decompress_json_data (Some blob) (Some dctx) = Ret v)
  ∧ (∀ raw v dctx,
       Json.loads raw = Ret v →
       not_compressed dctx raw →
       decompress_json_data (Some raw) dctx = Ret v)
  ∧ (∀ g dctx,
       garbage dctx g →
       decompress_json_data (Some g) dctx = Ret Json.empty_dict).
Proof.
  split_and!.
  - intros v zdict blob dctx Hcodec Hjson Hcomp Hctx.
    assert (∃ d, compress {| level := 7; cdict := d |} (Json.dumps v) = Ret blob
                 ∧ dctx = {| ddict := d |}) as (d & Hc & ->).
    { unfold User.compress_entry in Hcomp. unfold decompressor_of_row in Hctx.
      destruct zdict as [b|]; [destruct (truthy_bytes b)|].
      - destruct (load_dict b) as [[]|]; [|done].
        simpl in *. exists (Some b). by simplify_eq.
      - simpl in *. exists None. by simplify_eq.
      - simpl in *. exists None. by simplify_eq. }
    unfold decompress_json_data.
    rewrite (Hcodec _ _ _ _ Hc). simpl. by rewrite Hjson.
  - intros raw v dctx Hjson Hplain.
    unfold decompress_json_data. destruct dctx as [c|]; simpl.
    + destruct (Hplain c eq_refl) as [e ->]. simpl. by rewrite Hjson.
    + by rewrite Hjson.
  - intros g dctx [[e Hg] Hout].
    unfold decompress_json_data. destruct dctx as [c|]; simpl.
    + destruct (decompress c g) as [r|e'] eqn:Hd; simpl.
      * by destruct (Hout c r eq_refl Hd) as [e' ->].
      * by rewrite Hg.
    + by rewrite Hg.
Qed.
End codec.

(** *** The framed codec and the sample parser *)

Lemma frame_codec_round_trips : @round_trips frame_codec.
Proof.
  intros lvl d data c [= <-]. simpl.
  rewrite decide_True; done.
Qed.

(** C5, as stated, fails: a dictionary without a database gets no context,
    and nothing is cached for it. *)
Lemma C5_always_cached_fails : ¬ @always_cached frame_codec.
Proof.
  intros Hall.
  destruct (Hall no_dictionaries cold "ghost") as (dctx & Hret & _).
  vm_compute in Hret. discriminate.
Qed.

Lemma C5_context_cached_when_reachable_witness :
  (is_Some (_zstd_decompressors cold !! "en-fr")
   ∨ is_Some (get_db_connection
                (only_en_fr (Some (Some [Byte.x61; Byte.x62]))) cold
                "en-fr").1)
  ∧ (@get_zstd_decompressor frame_codec
       (only_en_fr (Some (Some [Byte.x61; Byte.x62]))) cold "en-fr").1
    = Some (seeded [Byte.x61; Byte.x62]).
Proof.
  assert (is_Some (get_db_connection
                     (only_en_fr (Some (Some [Byte.x61; Byte.x62]))) cold
                     "en-fr").1) as Hconn.
  { eexists. reflexivity. }
  split; [by right|].
  destruct (@C5_context_cached_when_reachable frame_codec
              (only_en_fr (Some (Some [Byte.x61; Byte.x62]))) cold "en-fr"
              (or_intror Hconn))
    as (dctx & st' & Hret & _ & _ & Hctx).
  rewrite Hret. simpl. f_equal.
  apply (Hctx {| Sqlite.select_zstd_dict :=
                   Ret (Some (Some [Byte.x61; Byte.x62])) |});
    reflexivity.
Defined.

Lemma C6_round_trip_witness :
  @decompress_json_data frame_codec Json.sample_package
    (Some (frame_magic :: Byte.x61 :: Json.text "[42]"))
    (Some (seeded (Json.text "abc")))
  = Ret (Json.List [Json.Int 42])
  ∧ @decompress_json_data frame_codec Json.sample_package
      (Some (Json.text "[42]")) (Some plain)
    = Ret (Json.List [Json.Int 42])
  ∧ @decompress_json_data frame_codec Json.sample_package
      (Some (Json.text "garbage")) (Some plain)
    = Ret Json.empty_dict.
Proof.
  destruct (@C6_round_trip frame_codec Json.sample_package)
    as (Hcompressed & Hplain & Hgarbage).
  split_and!.
  - apply (Hcompressed (Json.List [Json.Int 42]) (Some (Json.text "abc"))).
    + exact frame_codec_round_trips.
    + reflexivity.
    + reflexivity.
    + reflexivity.
  - apply Hplain.
    + reflexivity.
    + intros c [= <-]. eexists. reflexivity.
  - apply Hgarbage. split.
    + eexists. reflexivity.
    + intros c r [= <-] Hd. vm_compute in Hd. discriminate.
Defined.
End CodecProps.

(** ** Properties of the media database *)

Module MediaProps.
Import Py Api MediaSpec CacheSpec PyProps.




Lemma migrate_members_keeps zf members : ∀ table k,
  is_Some (table !! k) → is_Some ((migrate_members zf members table).2 !! k).
Proof.
  induction members as [|m members IH]; intros table k Hk; simpl; [done|].
  destruct (is_dir m); [by apply IH|].
  destruct (read zf (filename m)) as [file_data|e]; [|done].
  apply IH. destruct (decide (last_item (split "/" (filename m)) = k)) as [->|].
  - by rewrite lookup_insert_eq.
  - by rewrite lookup_insert_ne.
Qed.

(** A migration that completes has stored every file of the archive under
    the last segment of its name. *)
Lemma migrated_under_basename zf members : ∀ table table' m,
  migrate_members zf members table = (Ret (), table') →
  m ∈ members → is_dir m = false →
  is_Some (table' !! last_item (split "/" (filename m))).
Proof.
  induction members as [|m0 members IH]; intros table table' m Hrun Hm Hfile.
  { by apply elem_of_nil in Hm. }
  simpl in Hrun. apply elem_of_cons in Hm as [<-|Hm].
  - rewrite Hfile in Hrun.
    destruct (read zf (filename m)) as [file_data|e]; [|done].
    replace table' with
      (migrate_members zf members
         (<[last_item (split "/" (filename m)) := file_data]> table)).2
      by (by rewrite Hrun).
    apply migrate_members_keeps. by rewrite lookup_insert_eq.
  - destruct (is_dir m0); [by eapply IH|].
    destruct (read zf (filename m0)) as [file_data|e]; [|done].
    by eapply IH.
Qed.

(** Every name the migration writes is the last segment of the name of a
    file of the archive. *)
Lemma migrated_keys_are_basenames zf members : ∀ table k,
  (migrate_members zf members table).2 !! k ≠ table !! k →
  ∃ m, m ∈ members ∧ is_dir m = false
       ∧ k = last_item (split "/" (filename m)).
Proof.
  induction members as [|m members IH]; intros table k; simpl; [done|].
  assert ((∃ m', m' ∈ members ∧ is_dir m' = false
                 ∧ k = last_item (split "/" (filename m'))) →
          ∃ m', m' ∈ m :: members ∧ is_dir m' = false
                ∧ k = last_item (split "/" (filename m'))) as Hlater.
  { intros (m' & ? & ? & ?). exists m'. split_and!; [by right|done..]. }
  destruct (is_dir m) eqn:Hdir.
  { intros Hk. by apply Hlater, (IH table). }
  destruct (read zf (filename m)) as [file_data|e]; [|done].
  intros Hk.
  destruct (decide (k = last_item (split "/" (filename m)))) as [->|Hne].
  - exists m. split_and!; [by left|done..].
  - apply Hlater,
      (IH (<[last_item (split "/" (filename m)) := file_data]> table)).
    by rewrite (lookup_insert_ne table) by done.
Qed.

(** The scenario of the design document: the archive index resolves the
    path under the archive's directory, the migrated table does not. *)
Example word1_after_migration :
  let db := (migrate_zip_to_media_db only_audios empty_media_db).2 in
  build_index (namelist audios_zip_sample) !! "audios/word1.mp3"
  = Some "media/audios/word1.mp3"
  ∧ get_audio_file db "audios/word1.mp3" = Raise (HTTPException 404)
  ∧ get_audio_file db "word1.mp3" = Ret [Byte.x49; Byte.x44; Byte.x33].
Proof. split_and!; vm_compute; reflexivity. Qed.

Lemma migrate_members_lookup zf members : ∀ table table' key,
  migrate_members zf members table = (Ret (), table') →
  table' !! key
  = match last (filter (stored_as key) members) with
    | Some m => migrated_content zf (Some (filename m))
    | None => table !! key
    end.
Proof.
  induction members as [|m members IH]; intros table table' key Hrun.
  { simpl in Hrun. by injection Hrun as <-. }
  simpl in Hrun. rewrite filter_cons.
  destruct (is_dir m) eqn:Hdir.
  { rewrite decide_False by (intros [? _]; congruence). by apply IH. }
  destruct (read zf (filename m)) as [data|e] eqn:Hread; [|done].
  rewrite (IH _ _ key Hrun).
  destruct (decide (last_item (split "/" (filename m)) = key)) as [Hkey|Hkey].
  - rewrite decide_True by done. rewrite last_cons.
    destruct (last (filter (stored_as key) members)); [done|].
    rewrite <-Hkey, lookup_insert_eq. simpl. by rewrite Hread.
  - rewrite decide_False by (intros [_ ?]; done).
    destruct (last (filter (stored_as key) members)); [done|].
    by rewrite lookup_insert_ne.
Qed.










(** Two files whose paths end in the same segment: the table keeps the
    bytes of the later one. *)
Example shared_basename_last_stored :
  let zf := [{| filename := "a/x.mp3"; content := Ret [Byte.x61] |};
             {| filename := "b/x.mp3"; content := Ret [Byte.x62] |}] in
  Api.migrate_zip_to_media_db
    {| audios_zip := Some (Ret zf); images_zip := None;
       create_media_db_ok := true; connection_ok := true |} empty_media_db
  = (true, {| audios := {[ "x.mp3"%string := [Byte.x62] ]}; images := ∅ |}).
Proof. reflexivity. Qed.
End MediaProps.

(** ** Properties of the auxiliary-file endpoint *)

Module AuxProps.
Import Py Api AuxSpec PyProps.

(** C9: every file name that contains [..] or begins with [/] is refused
    with status 400 before the handler joins a path, probes the file
    system or serves anything; and whatever the handler does serve lies
    under the auxiliary root, on a path with no segment that steps up. *)
Theorem C9_traversal_rejected fs filename :
  (traversal filename →
   get_auxiliary_file fs filename = ([], Raise (HTTPException 400)))
  ∧ (∀ trace resp,
       get_auxiliary_file fs filename = (trace, Ret resp) →
       within_root fs (path resp)
       ∧ trace = [Joined (path resp); Probed (path resp); Served (path resp)]).
Proof.
  unfold get_auxiliary_file, traversal. split.
  - intros [-> | ->]; [done|]. by rewrite orb_true_r.
  - intros trace resp.
    destruct (contains ".." filename) eqn:Hdots; [done|].
    destruct (startswith filename "/") eqn:Hslash; [done|]. simpl.
    case_match; [done|]. intros [= <- <-]. simpl. split; [|done].
    unfold within_root, truediv, parse_path. simpl. rewrite Hslash. simpl.
    split; [done|]. eexists. split; [done|].
    intros [_ Hin]%list_elem_of_filter.
    apply split_contains in Hin. congruence.
Qed.

Lemma C9_traversal_rejected_witness :
  traversal "../secret.db"
  ∧ get_auxiliary_file everything_present "../secret.db"
    = ([], Raise (HTTPException 400)).
Proof.
  assert (traversal "../secret.db") as Hbad by (left; reflexivity).
  split; [done|].
  apply (proj1 (C9_traversal_rejected everything_present "../secret.db") Hbad).
Defined.

Example served_from_root :
  (get_auxiliary_file everything_present "data/config.json").2
  = Ret {| path := {| anchored := true;
                      parts := ["data"; "auxiliary"; "data"; "config.json"] |};
           download_name := "data/config.json" |}.
Proof. vm_compute. reflexivity. Qed.

Example absolute_name_refused :
  get_auxiliary_file everything_present "/etc/passwd"
  = ([], Raise (HTTPException 400)).
Proof. vm_compute. reflexivity. Qed.
End AuxProps.

(** ** Further properties of the version ledger and the update endpoint *)

Module LedgerExtras.
Import Py User ManifestSpec Updates.

Lemma or_zero_Some m : or_zero (Some m) = m.
Proof. unfold or_zero. by case_decide. Qed.

Lemma next_version_eq db d :
  next_version db d
  = match select_max_version db d with Some m => m + 1 | None => 1 end.
Proof.
  unfold next_version. destruct (select_max_version db d); [|done].
  by rewrite or_zero_Some.
Qed.

Lemma select_max_version_app l1 l2 d :
  select_max_version (l1 ++ l2) d
  = match select_max_version l1 d, select_max_version l2 d with
    | Some a, Some b => Some (Z.max a b)
    | Some a, None => Some a
    | None, other => other
    end.
Proof.
  induction l1 as [|r l1 IH]; simpl.
  - by destruct (select_max_version l2 d).
  - case_decide; [|done]. rewrite IH.
    destruct (select_max_version l1 d), (select_max_version l2 d);
      f_equal; lia.
Qed.

(** A batch of file records is written as a whole when its version can be
    bound, and not at all otherwise. *)
Lemma record_files_bound db d ver msg fnames :
  Sqlite.int64 ver →
  record_files db d ver msg fnames
  = (Ret (), db ++ (file_row d ver msg <$> fnames)).
Proof.
  intros Hver. revert db.
  induction fnames as [|f fnames IH]; intros db; cbn [record_files].
  - by rewrite app_nil_r.
  - rewrite UserProps.record_version_bound by done.
    rewrite IH. by rewrite <-app_assoc.
Qed.

Lemma record_files_overflow db d ver msg fnames :
  ¬ Sqlite.int64 ver → fnames ≠ [] →
  record_files db d ver msg fnames = (Raise OverflowError, db).
Proof.
  intros Hver Hne. destruct fnames as [|f fnames]; [done|].
  cbn [record_files]. by rewrite UserProps.record_version_overflow.
Qed.

Lemma record_entries_bound db d ver msg eids :
  Sqlite.int64 ver → Forall Sqlite.int64 eids →
  record_entries db d ver msg eids
  = (Ret (), db ++ (entry_row d ver msg <$> eids)).
Proof.
  intros Hver Heids. revert db.
  induction Heids as [|k eids Hk _ IH]; intros db; cbn [record_entries].
  - by rewrite app_nil_r.
  - rewrite UserProps.record_version_bound; [|done|by intros ? [= <-]].
    rewrite IH. by rewrite <-app_assoc.
Qed.

(** The maximum of a batch: its version, when the batch is not empty. *)
Lemma select_max_version_batch {A} (row : A → VersionRow) (items : list A)
    d ver :
  (∀ x, dict_id (row x) = d ∧ version (row x) = ver) →
  select_max_version (row <$> items) d
  = match items with [] => None | _ => Some ver end.
Proof.
  intros Hrow. induction items as [|x items IH]; [done|].
  rewrite fmap_cons. cbn [select_max_version].
  rewrite decide_True by apply Hrow. rewrite IH, (proj2 (Hrow x)).
  destruct items; f_equal; lia.
Qed.

Lemma select_max_version_other {A} (row : A → VersionRow) (items : list A)
    d d' :
  (∀ x, dict_id (row x) = d) → d' ≠ d →
  select_max_version (row <$> items) d' = None.
Proof.
  intros Hrow Hne. induction items as [|x items IH]; [done|].
  simpl. rewrite Hrow. by rewrite decide_False.
Qed.

(** The version before the next one is a version of the ledger, or 0. *)
Lemma next_version_pred_storable db d :
  versions_storable db → Sqlite.int64 (next_version db d - 1).
Proof.
  intros Hdb. rewrite next_version_eq.
  destruct (select_max_version db d) as [m|] eqn:Hmax.
  - apply UserProps.select_max_version_Some in Hmax as [Hin _].
    apply list_elem_of_fmap in Hin as (r & -> & [_ Hr]%list_elem_of_filter).
    replace (version r + 1 - 1) with (version r) by lia. by apply Hdb.
  - unfold Sqlite.int64. lia.
Qed.

Lemma en_fr_storable : versions_storable en_fr.
Proof.
  intros r Hr. unfold en_fr in Hr.
  repeat (apply elem_of_cons in Hr as [->|Hr]);
    try (unfold Sqlite.int64; simpl; lia).
  by apply elem_of_nil in Hr.
Qed.

(** X1: a batch of file records written under [next_version] is recorded
    whenever that version is a signed 64-bit integer, and then moves the
    next version of its dictionary up by exactly one and leaves the next
    version of every other dictionary as it was; when that version cannot
    be bound the first [INSERT] raises and the ledger is as before. *)
Theorem file_batch_advances_version db d msg fnames :
  fnames ≠ [] →
  let ver := next_version db d in
  (Sqlite.int64 ver →
   ∃ db', record_files db d ver msg fnames = (Ret (), db')
          ∧ next_version db' d = ver + 1
          ∧ ∀ d', d' ≠ d → next_version db' d' = next_version db d')
  ∧ (¬ Sqlite.int64 ver →
     record_files db d ver msg fnames = (Raise OverflowError, db)).
Proof.
  intros Hne ver. split; [|intros Hver; by apply record_files_overflow].
  intros Hver. eexists. split; [by apply record_files_bound|]. split.
  - rewrite (next_version_eq (_ ++ _)), select_max_version_app.
    rewrite (select_max_version_batch _ fnames d ver) by done.
    destruct fnames as [|f fnames]; [done|].
    unfold ver. rewrite next_version_eq.
    destruct (select_max_version db d) as [m|]; lia.
  - intros d' Hd'. rewrite !next_version_eq, select_max_version_app.
    rewrite (select_max_version_other _ fnames d d') by done.
    by destruct (select_max_version db d').
Qed.

Lemma file_batch_advances_version_witness :
  ["dictionary.db"%string] ≠ []
  ∧ Sqlite.int64 (next_version en_fr "en-fr")
  ∧ ∃ db', record_files en_fr "en-fr" (next_version en_fr "en-fr")
             "update" ["dictionary.db"%string] = (Ret (), db')
           ∧ next_version db' "en-fr" = next_version en_fr "en-fr" + 1.
Proof.
  assert (["dictionary.db"%string] ≠ []) as Hne by done.
  assert (Sqlite.int64 (next_version en_fr "en-fr")) as Hver
    by (vm_compute; split; discriminate).
  split_and!; [done..|].
  destruct (proj1 (file_batch_advances_version en_fr "en-fr" "update" _ Hne)
              Hver) as (db' & Hrec & Hnext & _).
  exists db'. split; [exact Hrec|exact Hnext].
Defined.

(** *** The window of the newest batch *)

Lemma order_by_version_const ver l :
  Forall (λ r, version r = ver) l → order_by_version l = l.
Proof.
  induction 1 as [|x l Hx Hl IH]; [done|].
  simpl. rewrite IH. destruct Hl as [|y l Hy _]; [done|].
  simpl. rewrite decide_True; [done|]. lia.
Qed.

Lemma older_rows_outside db d :
  filter (in_window d (next_version db d - 1) (next_version db d)) db = [].
Proof.
  assert (∀ r, r ∈ db → dict_id r = d → version r ≤ next_version db d - 1)
    as Hold.
  { intros r Hr Hd. unfold next_version.
    destruct (select_max_version db d) as [m|] eqn:Hmax.
    - rewrite or_zero_Some.
      apply UserProps.select_max_version_Some in Hmax as [_ Hub].
      assert (version r ≤ m); [|lia]. apply Hub.
      apply list_elem_of_fmap. exists r. split; [done|].
      by apply list_elem_of_filter.
    - apply UserProps.select_max_version_None in Hmax.
      assert (version r ∈ versions_of db d) as Hin.
      { apply list_elem_of_fmap. exists r. split; [done|].
        by apply list_elem_of_filter. }
      rewrite Hmax in Hin. by apply elem_of_nil in Hin. }
  induction db as [|r db IH]; [done|].
  rewrite filter_cons. rewrite decide_False.
  - apply elem_of_nil_inv. intros x [Hw Hx]%list_elem_of_filter.
    destruct Hw as (Hd & Hlo & _).
    assert (version x ≤ next_version (r :: db) d - 1); [|lia].
    apply Hold; [by right|done].
  - intros (Hd & Hlo & _).
    assert (version r ≤ next_version (r :: db) d - 1); [|lia].
    apply Hold; [by left|done].
Qed.

Lemma newest_window {A} (row : A → VersionRow) (items : list A) db d :
  (∀ x, dict_id (row x) = d ∧ version (row x) = next_version db d) →
  window_rows (db ++ (row <$> items)) d
    (next_version db d - 1) (next_version db d)
  = row <$> items.
Proof.
  intros Hrow. unfold window_rows.
  rewrite filter_app, older_rows_outside. simpl.
  assert (filter (in_window d (next_version db d - 1) (next_version db d))
            (row <$> items) = row <$> items) as ->.
  { induction items as [|x items IH]; [done|].
    rewrite fmap_cons, filter_cons, IH. rewrite decide_True; [done|].
    destruct (Hrow x) as [Hd Hv]. unfold in_window. rewrite Hd, Hv.
    split_and!; [done|lia..]. }
  apply (order_by_version_const (next_version db d)).
  apply Forall_fmap, Forall_true. intros x. simpl. apply Hrow.
Qed.

Lemma scan_file_rows d ver msg fnames : ∀ fs,
  scan_rows {| files_needed := fs; entries_needed := [] |}
    (file_row d ver msg <$> fnames)
  = Ret {| files_needed := list_to_set fnames ∪ fs; entries_needed := [] |}.
Proof.
  induction fnames as [|f fnames IH]; intros fs; simpl.
  - by rewrite (left_id_L ∅ (∪)).
  - unfold scan_row. simpl.
    destruct (decide (f = "dictionary.db")); simpl; rewrite IH;
      by rewrite (assoc_L (∪)), (comm_L (∪) (list_to_set fnames)).
Qed.

(** X2: on a ledger of 64-bit versions whose next version is one too, a
    batch of file records under that version is recorded, and a client
    that holds the version before it is then told to fetch exactly the
    files of the batch, each once, in sorted order, and no entries. *)
Theorem newest_file_batch_required db d msg fnames :
  let ver := next_version db d in
  versions_storable db → Sqlite.int64 ver →
  ∃ db', record_files db d ver msg fnames = (Ret (), db')
         ∧ _compute_required_files db' d (ver - 1) ver
           = Ret {| files := sorted (list_to_set fnames); entries := [] |}.
Proof.
  intros ver Hdb Hver. eexists. split; [by apply record_files_bound|].
  unfold _compute_required_files.
  rewrite UserProps.select_window_bound
    by (done || by apply next_version_pred_storable).
  unfold ver. rewrite newest_window by done. simpl.
  rewrite scan_file_rows. simpl. by rewrite (right_id_L ∅ (∪)).
Qed.

Lemma newest_file_batch_required_witness :
  versions_storable en_fr
  ∧ Sqlite.int64 (next_version en_fr "en-fr")
  ∧ ∃ db', record_files en_fr "en-fr" (next_version en_fr "en-fr") "update"
             ["logo.png"%string; "media.db"%string] = (Ret (), db')
           ∧ _compute_required_files db' "en-fr"
               (next_version en_fr "en-fr" - 1) (next_version en_fr "en-fr")
             = Ret {| files := sorted (list_to_set
                                         ["logo.png"%string; "media.db"%string]);
                      entries := [] |}.
Proof.
  assert (Sqlite.int64 (next_version en_fr "en-fr")) as Hver
    by (vm_compute; split; discriminate).
  split_and!; [exact en_fr_storable|done|].
  apply (newest_file_batch_required en_fr "en-fr" "update"
           ["logo.png"%string; "media.db"%string] en_fr_storable Hver).
Defined.

Lemma scan_entry_rows d ver msg eids : ∀ fs es,
  ∃ es',
    scan_rows {| files_needed := fs; entries_needed := es |}
      (entry_row d ver msg <$> eids)
    = Ret {| files_needed := fs; entries_needed := es' |}
    ∧ keys es' = foldl (λ acc k, add_once k acc) (keys es) eids.
Proof.
  induction eids as [|k eids IH]; intros fs es.
  - by exists es.
  - destruct (IH fs (setitem k () es)) as (es' & Hrun & Hkeys).
    exists es'. split.
    + rewrite fmap_cons. cbn [scan_rows]. exact Hrun.
    + by rewrite Hkeys, UserProps.keys_setitem.
Qed.

Lemma first_seen_spec (eids : list Z) : ∀ acc,
  NoDup acc →
  NoDup (foldl (λ acc k, add_once k acc) acc eids)
  ∧ ∀ k, k ∈ foldl (λ acc k, add_once k acc) acc eids ↔ k ∈ acc ∨ k ∈ eids.
Proof.
  induction eids as [|e eids IH]; intros acc Hacc; simpl.
  - split; [done|]. intros k. rewrite elem_of_nil. tauto.
  - destruct (IH (add_once e acc)) as [Hnd Hin].
    { by apply UserProps.add_once_NoDup. }
    split; [done|]. intros k.
    rewrite Hin, UserProps.add_once_elem, elem_of_cons. tauto.
Qed.

(** X3: on a ledger of 64-bit versions whose next version is one too, a
    batch of entry records with 64-bit identifiers under that version is
    recorded, and a client that holds the version before it is then told
    to fetch no file and exactly the entries of the batch, each once. *)
Theorem newest_entry_batch_required db d msg eids :
  let ver := next_version db d in
  versions_storable db → Sqlite.int64 ver → Forall Sqlite.int64 eids →
  ∃ db' es,
    record_entries db d ver msg eids = (Ret (), db')
    ∧ _compute_required_files db' d (ver - 1) ver
      = Ret {| files := []; entries := es |}
    ∧ NoDup es
    ∧ ∀ k, k ∈ es ↔ k ∈ eids.
Proof.
  intros ver Hdb Hver Heids.
  destruct (scan_entry_rows d ver msg eids ∅ []) as (es' & Hscan & Hkeys).
  destruct (first_seen_spec eids []) as [Hnd Hin]; [apply NoDup_nil_2|].
  exists (db ++ (entry_row d ver msg <$> eids)), (keys es'). split_and!.
  - by apply record_entries_bound.
  - unfold _compute_required_files.
    rewrite UserProps.select_window_bound
      by (done || by apply next_version_pred_storable).
    unfold ver. rewrite newest_window by done. simpl.
    fold ver. rewrite Hscan. simpl.
    unfold sorted. by rewrite elements_empty.
  - by rewrite Hkeys.
  - intros k. rewrite Hkeys. simpl. rewrite Hin, elem_of_nil. tauto.
Qed.

Lemma newest_entry_batch_required_witness :
  versions_storable en_fr
  ∧ Sqlite.int64 (next_version en_fr "en-fr")
  ∧ Forall Sqlite.int64 [7; 9; 7]
  ∧ ∃ db' es,
      record_entries en_fr "en-fr" (next_version en_fr "en-fr") "update"
        [7; 9; 7] = (Ret (), db')
      ∧ _compute_required_files db' "en-fr"
          (next_version en_fr "en-fr" - 1) (next_version en_fr "en-fr")
        = Ret {| files := []; entries := es |}
      ∧ NoDup es.
Proof.
  assert (Sqlite.int64 (next_version en_fr "en-fr")) as Hver
    by (vm_compute; split; discriminate).
  assert (Forall Sqlite.int64 [7; 9; 7]) as Heids
    by (repeat constructor; unfold Sqlite.int64; lia).
  split_and!; [exact en_fr_storable|done..|].
  destruct (newest_entry_batch_required en_fr "en-fr" "update" [7; 9; 7]
              en_fr_storable Hver Heids) as (db' & es & Hrec & Hrun & Hnd & _).
  exists db', es. split_and!; [exact Hrec|exact Hrun|exact Hnd].
Defined.

(** *** The change log *)

Lemma distinct_elem (l : list (Z * string)) x : x ∈ distinct l ↔ x ∈ l.
Proof.
  induction l as [|y l IH]; [done|]. simpl.
  rewrite !elem_of_cons, list_elem_of_filter, IH.
  destruct (decide (x = y)); tauto.
Qed.

Lemma distinct_NoDup (l : list (Z * string)) : NoDup (distinct l).
Proof.
  induction l as [|y l IH]; simpl; [apply NoDup_nil_2|].
  apply NoDup_cons. split.
  - intros [Hne _]%list_elem_of_filter. done.
  - by apply NoDup_filter.
Qed.

Lemma filter_StronglySorted {A} (R : relation A) (P : A → Prop)
    `{∀ x, Decision (P x)} l :
  StronglySorted R l → StronglySorted R (filter P l).
Proof.
  induction 1 as [|x l Hl IH Hx]; [constructor|].
  rewrite filter_cons. case_decide; [|done].
  constructor; [done|].
  apply Forall_forall. intros y [_ Hy]%list_elem_of_filter.
  rewrite Forall_forall in Hx. exact (Hx y Hy).
Qed.

Lemma distinct_sorted (l : list (Z * string)) :
  StronglySorted (λ a b, a.1 ≤ b.1) l →
  StronglySorted (λ a b, a.1 ≤ b.1) (distinct l).
Proof.
  induction 1 as [|x l Hl IH Hx]; simpl; [constructor|].
  constructor.
  - by apply filter_StronglySorted.
  - apply Forall_forall. intros y [_ Hy]%list_elem_of_filter.
    rewrite distinct_elem in Hy. rewrite Forall_forall in Hx.
    exact (Hx y Hy).
Qed.

Lemma get_history_between_bound db d from_ver to_ver :
  Sqlite.int64 from_ver → Sqlite.int64 to_ver →
  _get_history_between db d from_ver to_ver
  = Ret (distinct ((λ r, (version r, message r))
                     <$> window_rows db d from_ver to_ver)).
Proof.
  intros Hf Ht. unfold _get_history_between.
  by rewrite UserProps.select_window_bound.
Qed.

Lemma get_history_between_overflow db d from_ver to_ver :
  ¬ (Sqlite.int64 from_ver ∧ Sqlite.int64 to_ver) →
  _get_history_between db d from_ver to_ver = Raise OverflowError.
Proof.
  intros Hno. unfold _get_history_between.
  by rewrite UserProps.select_window_overflow.
Qed.

(** X4: for a window whose bounds are signed 64-bit integers the change
    log lists each (version, message) pair of the dictionary's records in
    the window exactly once, in ascending version order, and nothing else;
    for a bound outside that range the query raises [OverflowError]. *)
Theorem history_distinct_sorted db d from_ver to_ver :
  (Sqlite.int64 from_ver → Sqlite.int64 to_ver →
   ∃ log,
     _get_history_between db d from_ver to_ver = Ret log
     ∧ NoDup log
     ∧ StronglySorted (λ a b, a.1 ≤ b.1) log
     ∧ ∀ v m,
         (v, m) ∈ log
         ↔ ∃ r, r ∈ db ∧ in_window d from_ver to_ver r
                ∧ version r = v ∧ message r = m)
  ∧ (¬ (Sqlite.int64 from_ver ∧ Sqlite.int64 to_ver) →
     _get_history_between db d from_ver to_ver = Raise OverflowError).
Proof.
  split; [|apply get_history_between_overflow].
  intros Hf Ht. eexists. split; [by apply get_history_between_bound|].
  split_and!.
  - apply distinct_NoDup.
  - apply distinct_sorted.
    assert (StronglySorted version_le (window_rows db d from_ver to_ver))
      as Hs.
    { apply Sorted_StronglySorted.
      - intros a b c. unfold version_le. lia.
      - apply UserProps.order_by_version_sorted. }
    induction Hs as [|r rows Hrows IH Hr]; [constructor|].
    rewrite fmap_cons. constructor; [done|].
    apply Forall_fmap. eapply Forall_impl; [exact Hr|]. by intros r'.
  - intros v m. rewrite distinct_elem, list_elem_of_fmap. split.
    + intros (r & [= -> ->] & Hr).
      apply UserProps.window_rows_elem in Hr as [? ?]. by exists r.
    + intros (r & Hr & Hw & <- & <-). exists r. split; [done|].
      by apply UserProps.window_rows_elem.
Qed.

Lemma history_distinct_sorted_witness :
  Sqlite.int64 0 ∧ Sqlite.int64 2
  ∧ _get_history_between en_fr "en-fr" 0 2
    = Ret [(1, "update"%string); (2, "update"%string)].
Proof.
  assert (Sqlite.int64 0) as H0 by (unfold Sqlite.int64; lia).
  assert (Sqlite.int64 2) as H2 by (unfold Sqlite.int64; lia).
  split_and!; [done..|].
  destruct (proj1 (history_distinct_sorted en_fr "en-fr" 0 2) H0 H2)
    as (log & Hrun & _).
  rewrite Hrun. vm_compute in Hrun. by injection Hrun as <-.
Defined.

(** X5: when the change log of a window is returned empty, nothing is
    required: the manifest of the same window has no files and no
    entries. *)
Theorem empty_history_nothing_required db d from_ver to_ver :
  _get_history_between db d from_ver to_ver = Ret [] →
  _compute_required_files db d from_ver to_ver
  = Ret {| files := []; entries := [] |}.
Proof.
  unfold _get_history_between, _compute_required_files.
  destruct (select_window db d from_ver to_ver) as [rows|e]; [|done].
  destruct rows as [|r rows]; [|done]. intros _.
  simpl. unfold sorted. by rewrite elements_empty.
Qed.

Lemma empty_history_nothing_required_witness :
  _get_history_between en_fr "en-fr" 3 7 = Ret []
  ∧ _compute_required_files en_fr "en-fr" 3 7
    = Ret {| files := []; entries := [] |}.
Proof.
  assert (_get_history_between en_fr "en-fr" 3 7 = Ret []) as Hnone
    by reflexivity.
  split; [done|].
  apply (empty_history_nothing_required en_fr "en-fr" 3 7 Hnone).
Defined.

(** *** The update endpoint *)

(** X6: [get_updates] with [to_ver] left out.  For a dictionary without a
    directory it answers 404.  For a dictionary with one: a [from_ver]
    that is no signed 64-bit integer makes the first query raise
    [OverflowError]; otherwise, on a ledger of 64-bit versions, every
    response repeats [from_ver] and reports as its target the version
    before [next_version], a client whose version is at least that target
    gets an empty change log and an empty manifest, and on a ledger whose
    entry records carry their identifier the endpoint answers. *)
Theorem get_updates_latest dict_exists db d from_ver :
  (dict_exists = false →
   get_updates dict_exists db d from_ver None = Raise (HTTPException 404))
  ∧ (dict_exists = true → ¬ Sqlite.int64 from_ver →
     get_updates dict_exists db d from_ver None = Raise OverflowError)
  ∧ (dict_exists = true → Sqlite.int64 from_ver → versions_storable db →
     (∀ resp, get_updates dict_exists db d from_ver None = Ret resp →
              resp_from resp = from_ver
              ∧ resp_to resp = next_version db d - 1)
     ∧ (next_version db d - 1 ≤ from_ver →
        get_updates dict_exists db d from_ver None
        = Ret {| resp_dict_id := d; resp_from := from_ver;
                 resp_to := next_version db d - 1; history := [];
                 required := {| files := []; entries := [] |} |})
     ∧ (entries_identified db →
        ∃ resp, get_updates dict_exists db d from_ver None = Ret resp)).
Proof.
  assert (or_zero match select_max_version db d with
                  | Some m => Some m
                  | None => Some 0
                  end = next_version db d - 1) as Hto.
  { rewrite next_version_eq.
    destruct (select_max_version db d); rewrite or_zero_Some; lia. }
  split_and!.
  - by intros ->.
  - intros -> Hfrom. unfold get_updates. cbn [negb]. rewrite Hto.
    by rewrite get_history_between_overflow by (by intros [? _]).
  - intros -> Hfrom Hdb. unfold get_updates. cbn [negb]. rewrite Hto.
    pose proof (next_version_pred_storable db d Hdb) as Hto64.
    rewrite get_history_between_bound by done. split_and!.
    + intros resp. simpl.
      destruct (_compute_required_files _ _ _ _); simpl; [|done].
      by intros [= <-].
    + intros Hle. rewrite UserProps.window_rows_empty by done.
      unfold _compute_required_files.
      rewrite UserProps.select_window_bound by done.
      rewrite UserProps.window_rows_empty by done. simpl.
      unfold sorted. by rewrite elements_empty.
    + intros Hid. rewrite UserProps.compute_required_files_scan by done.
      by eexists.
Qed.

Lemma get_updates_latest_witness :
  Sqlite.int64 3 ∧ versions_storable en_fr
  ∧ get_updates true en_fr "en-fr" 3 None
    = Ret {| resp_dict_id := "en-fr"; resp_from := 3; resp_to := 3;
             history := [];
             required := {| files := []; entries := [] |} |}.
Proof.
  assert (Sqlite.int64 3) as H3 by (unfold Sqlite.int64; lia).
  split_and!; [done|exact en_fr_storable|].
  destruct (get_updates_latest true en_fr "en-fr" 3) as (_ & _ & Hlatest).
  destruct (Hlatest eq_refl H3 en_fr_storable) as (_ & Hempty & _).
  apply Hempty. vm_compute. discriminate.
Defined.

(** X24: on a ledger whose entry records carry their identifier and for
    a window whose bounds are signed 64-bit integers, a file is in the
    manifest exactly when a [file] record of the window names it, and an
    entry is in the manifest exactly when an [entry] record of the window
    names it and no record scanned after it replaces [dictionary.db]; for
    a bound outside that range the query raises [OverflowError]. *)
Theorem required_manifest_meaning db d from_ver to_ver :
  entries_identified db →
  (Sqlite.int64 from_ver → Sqlite.int64 to_ver →
   ∃ m, _compute_required_files db d from_ver to_ver = Ret m
        ∧ (∀ x, x ∈ files m
                ↔ ∃ r, r ∈ db ∧ in_window d from_ver to_ver r
                       ∧ change_type r = "file" ∧ file_name r = x)
        ∧ (∀ k, k ∈ entries m
                ↔ ∃ l1 r l2,
                    window_rows db d from_ver to_ver = l1 ++ r :: l2
                    ∧ change_type r = "entry" ∧ entry_id r = Some k
                    ∧ ∀ r', r' ∈ l2 → ¬ replaces_store r'))
  ∧ (¬ (Sqlite.int64 from_ver ∧ Sqlite.int64 to_ver) →
     _compute_required_files db d from_ver to_ver = Raise OverflowError).
Proof.
  intros Hid. split; [|apply UserProps.compute_required_files_overflow].
  intros Hf Ht. eexists.
  split; [by apply UserProps.compute_required_files_scan|]. split.
  - intros x. rewrite UserProps.manifest_files_spec. split.
    + intros (r & Hr & ? & ?).
      apply UserProps.window_rows_elem in Hr as [? ?]. by exists r.
    + intros (r & ? & ? & ? & ?). exists r. split_and!; [|done..].
      by apply UserProps.window_rows_elem.
  - intros k. apply UserProps.manifest_entries_spec.
Qed.

Lemma required_manifest_meaning_witness :
  entries_identified en_fr
  ∧ Sqlite.int64 0 ∧ Sqlite.int64 2
  ∧ ∃ m, _compute_required_files en_fr "en-fr" 0 2 = Ret m
         ∧ (42 ∈ entries m
            ↔ ∃ l1 r l2,
                window_rows en_fr "en-fr" 0 2 = l1 ++ r :: l2
                ∧ change_type r = "entry" ∧ entry_id r = Some 42
                ∧ ∀ r', r' ∈ l2 → ¬ replaces_store r').
Proof.
  assert (Sqlite.int64 0) as H0 by (unfold Sqlite.int64; lia).
  assert (Sqlite.int64 2) as H2 by (unfold Sqlite.int64; lia).
  split_and!; [exact UserProps.en_fr_identified|done..|].
  destruct (proj1 (required_manifest_meaning en_fr "en-fr" 0 2
                     UserProps.en_fr_identified) H0 H2)
    as (m & Hrun & _ & Hentries).
  exists m. split; [exact Hrun|apply Hentries].
Defined.

(** A dictionary without a directory is not found, whatever the ledger
    holds. *)
Example get_updates_unknown db d from_ver to_ver :
  get_updates false db d from_ver to_ver = Raise (HTTPException 404).
Proof. reflexivity. Qed.

(** A version the client cannot have been given stops the endpoint. *)
Example get_updates_beyond_int64 :
  get_updates true en_fr "en-fr" beyond_int64 None = Raise OverflowError.
Proof. vm_compute. reflexivity. Qed.
End LedgerExtras.

(** ** Properties of password hashing and of dictionary identifiers *)

Module AccountProps.
Import Py PyMore Accounts DictIds.

Lemma append_cons c a b : String c a +:+ b = String c (a +:+ b).
Proof. reflexivity. Qed.

Lemma append_nil b : EmptyString +:+ b = b.
Proof. reflexivity. Qed.

Lemma contains_char_cons sep c s :
  contains (String sep EmptyString) (String c s) = false →
  c ≠ sep ∧ contains (String sep EmptyString) s = false.
Proof.
  simpl. destruct (ascii_dec sep c) as [->|Hne].
  - by destruct s.
  - intros Hs. split; [congruence|].
    by destruct (contains (String sep EmptyString) s).
Qed.

Lemma partition_at_append sep a b :
  contains (String sep EmptyString) a = false →
  partition_at sep (a +:+ String sep b) = Some (a, b).
Proof.
  induction a as [|c a IH]; intros Ha.
  - rewrite append_nil. simpl. by rewrite decide_True.
  - apply contains_char_cons in Ha as [Hc Ha].
    rewrite append_cons. simpl. rewrite decide_False by done.
    by rewrite IH.
Qed.

Lemma partition_at_None sep s :
  contains (String sep EmptyString) s = false → partition_at sep s = None.
Proof.
  induction s as [|c s IH]; [done|]. intros Hs.
  apply contains_char_cons in Hs as [Hc Hs].
  simpl. rewrite decide_False by done. by rewrite IH.
Qed.

Lemma all_chars_append p a b :
  all_chars p (a +:+ b) = all_chars p a && all_chars p b.
Proof.
  induction a as [|c a IH]; [done|].
  rewrite append_cons. simpl. rewrite IH. by destruct (p c).
Qed.

Section hashing.
Context `{!Hashlib}.

(** X7: a stored hash made with a salt that has no colon verifies an
    attempt as follows: when the salt and the two digests are ASCII, the
    answer is whether the attempt's salted digest equals the stored one,
    so the password the hash was made from verifies; when one of them is
    not ASCII, [compare_digest] raises [TypeError]. *)
Theorem verify_password_spec token salt password attempt :
  let salt' := match salt with Some s => s | None => token end in
  let digest pw := sha256_hexdigest (encode (salt' +:+ ":" +:+ pw)) in
  contains ":" salt' = false →
  verify_password (hash_password token password salt) attempt
  = (if isascii salt' && isascii (digest password) && isascii (digest attempt)
     then Ret (bool_decide (digest attempt = digest password))
     else Raise TypeError)
  ∧ verify_password (hash_password token password salt) password
    = (if isascii salt' && isascii (digest password)
       then Ret true else Raise TypeError).
Proof.
  intros salt' digest Hcolon.
  assert (hash_password token password salt = salt' +:+ ":" +:+ digest password)
    as Hstored by (by destruct salt).
  assert (∀ pw,
            verify_password (salt' +:+ ":" +:+ digest password) pw
            = if isascii salt' && isascii (digest password)
                 && isascii (digest pw)
              then Ret (bool_decide (digest pw = digest password))
              else Raise TypeError) as Hverify.
  { intros pw. unfold verify_password, split_once.
    change (salt' +:+ ":" +:+ digest password)
      with (salt' +:+ String ":" (digest password)).
    rewrite (partition_at_append ":" salt' (digest password)) by done.
    cbn [length hd]. rewrite decide_False by (intros Hne; by apply Hne).
    unfold compare_digest, hash_password. fold (digest pw).
    change (salt' +:+ ":" +:+ digest pw)
      with (salt' +:+ String ":" (digest pw)).
    unfold isascii. rewrite !all_chars_append. cbn [all_chars negb andb].
    destruct (all_chars _ salt'), (all_chars _ (digest password)),
      (all_chars _ (digest pw)); cbn [andb]; try reflexivity.
    f_equal. apply bool_decide_ext. split.
    - intros Heq. apply (inj (String.app salt')) in Heq. by injection Heq.
    - by intros ->. }
  rewrite Hstored. split.
  - apply Hverify.
  - rewrite Hverify. rewrite bool_decide_true by done.
    by destruct (isascii salt'), (isascii (digest password)).
Qed.

(** A stored text without a colon has no salt to split off. *)
Lemma verify_password_no_salt stored password :
  contains ":" stored = false → verify_password stored password = Ret false.
Proof.
  intros Hs. unfold verify_password, split_once.
  by rewrite (partition_at_None ":" stored).
Qed.
End hashing.

Lemma verify_password_spec_witness :
  contains ":" "5f3a" = false
  ∧ @verify_password unary_digest
      (@hash_password unary_digest "5f3a" "hunter22" None) "hunter22"
    = Ret true.
Proof.
  assert (contains ":" "5f3a" = false) as Hcolon by reflexivity.
  split; [done|].
  apply (proj2 (@verify_password_spec unary_digest "5f3a" None
                  "hunter22" "hunter22" Hcolon)).
Defined.

(** A salt that is not ASCII cannot be compared. *)
Example verify_password_non_ascii_salt :
  @verify_password unary_digest
    (@hash_password unary_digest "" "hunter22"
       (Some (String "233"%char EmptyString))) "hunter22"
  = Raise TypeError.
Proof. vm_compute. reflexivity. Qed.

(** *** Dictionary identifiers *)

Lemma before_final_newline_chars s :
  all_chars id_char (before_final_newline s) = true →
  all_chars (λ c, id_char c || is_newline c) s = true.
Proof.
  induction s as [|c s IH]; [done|].
  destruct s as [|c' s].
  - simpl. unfold is_newline. case_decide as Hc.
    + subst. by rewrite bool_decide_true, orb_true_r.
    + simpl. intros Hid. rewrite andb_true_r in Hid. by rewrite Hid.
  - intros Hall.
    change (before_final_newline (String c (String c' s)))
      with (String c (before_final_newline (String c' s))) in Hall.
    cbn [all_chars] in Hall. apply andb_true_iff in Hall as [Hc Hrest].
    apply andb_true_iff. split.
    + by rewrite Hc.
    + by apply IH.
Qed.

Lemma contains_cons sub c s :
  contains sub (String c s) = String.prefix sub (String c s) || contains sub s.
Proof. reflexivity. Qed.

Lemma prefix_cons a sub c s :
  String.prefix (String a sub) (String c s)
  = if ascii_dec a c then String.prefix sub s else false.
Proof. reflexivity. Qed.

Lemma prefix_nil s : String.prefix EmptyString s = true.
Proof. by destruct s. Qed.

Lemma id_chars_no_separator s :
  all_chars (λ c, id_char c || is_newline c) s = true →
  split "/" s = [s] ∧ contains "/" s = false ∧ contains "." s = false
  ∧ startswith s "/" = false.
Proof.
  induction s as [|c s IH]; [done|]. cbn [all_chars].
  intros [Hc Hs]%andb_true_iff. destruct (IH Hs) as (Hsplit & Hslash & Hdot & _).
  assert (c ≠ "/"%char ∧ c ≠ "."%char) as [Hc1 Hc2].
  { split; intros ->; vm_compute in Hc; discriminate. }
  unfold startswith. rewrite !contains_cons, !prefix_cons, Hslash, Hdot.
  cbn [split]. rewrite decide_False by done. rewrite Hsplit.
  destruct (ascii_dec "/" c) as [<-|_]; [done|].
  destruct (ascii_dec "." c) as [<-|_]; [done|].
  done.
Qed.

Lemma contains_dot_dot s : contains "." s = false → contains ".." s = false.
Proof.
  induction s as [|c s IH]; [done|].
  rewrite !contains_cons, !prefix_cons, prefix_nil.
  destruct (ascii_dec "." c) as [<-|_]; [done|].
  simpl. exact IH.
Qed.

(** X8: an identifier [validate_dict_id] accepts contains no [/] and no
    [.], so the directory [dict_dir] gives it is the child of the
    dictionaries directory that carries the identifier as its name. *)
Theorem valid_dict_id_direct_child DICTS_PATH dict_id :
  validate_dict_id dict_id = true →
  contains "/" dict_id = false
  ∧ contains ".." dict_id = false
  ∧ dict_dir DICTS_PATH dict_id
    = {| Api.anchored := Api.anchored DICTS_PATH;
         Api.parts := Api.parts DICTS_PATH ++ [dict_id] |}.
Proof.
  unfold validate_dict_id. intros [Hlen Hchars]%andb_true_iff.
  apply bool_decide_eq_true in Hlen.
  apply before_final_newline_chars in Hchars.
  destruct (id_chars_no_separator _ Hchars) as (Hsplit & Hslash & Hdot & Hroot).
  split_and!; [done|by apply contains_dot_dot|].
  unfold dict_dir, Api.truediv, Api.parse_path. simpl.
  rewrite Hroot, Hsplit. simpl. f_equal. f_equal.
  rewrite filter_cons, decide_True; [done|]. split.
  - intros ->. simpl in Hlen. lia.
  - intros ->. by vm_compute in Hdot.
Qed.

Lemma valid_dict_id_direct_child_witness :
  validate_dict_id "en-fr_2" = true
  ∧ dict_dir (Api.parse_path "/data/dictionaries") "en-fr_2"
    = {| Api.anchored := true;
         Api.parts := ["data"; "dictionaries"; "en-fr_2"] |}.
Proof.
  assert (validate_dict_id "en-fr_2" = true) as Hok by reflexivity.
  split; [done|].
  apply (valid_dict_id_direct_child (Api.parse_path "/data/dictionaries")
           "en-fr_2" Hok).
Defined.

(** The pattern's [$] also matches before a final newline. *)
Example final_newline_accepted :
  validate_dict_id (String.append "en-fr" (String "010" EmptyString)) = true.
Proof. reflexivity. Qed.

Example path_like_ids_refused :
  validate_dict_id "../en-fr" = false ∧ validate_dict_id "" = false
  ∧ validate_dict_id "a/b" = false.
Proof. split_and!; reflexivity. Qed.

(** X9: [validate_metadata_keys] lists, sorted and without repeats, the
    required keys the metadata lacks; the list is empty exactly when the
    metadata has all four. *)
Theorem missing_metadata_keys meta :
  Sorted String.le (validate_metadata_keys meta)
  ∧ NoDup (validate_metadata_keys meta)
  ∧ (∀ k, k ∈ validate_metadata_keys meta
          ↔ k ∈ METADATA_REQUIRED_KEYS ∧ k ∉ meta.*1)
  ∧ (validate_metadata_keys meta = []
     ↔ ∀ k, k ∈ METADATA_REQUIRED_KEYS → k ∈ meta.*1).
Proof.
  unfold validate_metadata_keys, sorted.
  set (missing := METADATA_REQUIRED_KEYS ∖ list_to_set meta.*1).
  assert (∀ k, k ∈ merge_sort String.le (elements missing)
               ↔ k ∈ METADATA_REQUIRED_KEYS ∧ k ∉ meta.*1) as Hin.
  { intros k. rewrite merge_sort_Permutation, elem_of_elements.
    unfold missing. by rewrite elem_of_difference, elem_of_list_to_set. }
  split_and!.
  - apply Sorted_merge_sort, _.
  - rewrite merge_sort_Permutation. apply NoDup_elements.
  - exact Hin.
  - split.
    + intros Hnil k Hk. destruct (decide (k ∈ meta.*1)) as [|Hout]; [done|].
      assert (k ∈ merge_sort String.le (elements missing)) as Hk'
        by (by apply Hin).
      rewrite Hnil in Hk'. by apply elem_of_nil in Hk'.
    + intros Hall. apply elem_of_nil_inv. intros k [Hk Hout]%Hin.
      by apply Hout, Hall.
Qed.
End AccountProps.

(** ** Properties of the archive caches, the streams and the downloads *)

Module CacheProps.
Import Py PyMore Api IndexSpec CacheSpec Streaming.

Lemma index_names_count names : ∀ index count,
  (index_names index count names).2 = count + file_entries names.
Proof.
  unfold file_entries.
  induction names as [|n names IH]; intros index count; simpl; [lia|].
  rewrite filter_cons.
  destruct (decide (is_file_entry n)) as [Hfile|Hdir];
    unfold is_file_entry in *.
  - rewrite Hfile, IH. simpl. lia.
  - apply not_false_iff_true in Hdir. rewrite Hdir. apply IH.
Qed.

(** X10: a lookup that succeeds leaves the archive's handle and the
    returned index in the caches, and asking again while the archive is
    unchanged is a cache hit: the same index, and the caches as they
    are. *)
Theorem get_zip_index_hit_after_success disk c zip_path index c' :
  get_zip_index disk c zip_path = (Ret index, c') →
  is_Some (_zip_file_cache c' !! zip_path)
  ∧ _zip_index_cache c' !! zip_path = Some index
  ∧ get_zip_index disk c' zip_path = (Ret index, c').
Proof.
  unfold get_zip_index.
  destruct (disk zip_path) as [f|]; [|done].
  assert (∀ c0,
    match opened f with
    | Ret zf =>
        (Ret (index_names ∅ 0 (namelist zf)).1,
         store_index c0 zip_path zf (index_names ∅ 0 (namelist zf))
           (st_mtime f))
    | Raise _ => (Raise (HTTPException 500), c0)
    end = (Ret index, c') →
    is_Some (_zip_file_cache c' !! zip_path)
    ∧ _zip_index_cache c' !! zip_path = Some index
    ∧ _zip_file_mtime_cache c' !! zip_path = Some (st_mtime f)) as Hrebuild.
  { intros c0. destruct (opened f) as [zf|e]; [|done].
    intros [= <- <-]. simpl. rewrite !lookup_insert_eq. eauto. }
  assert (is_Some (_zip_file_cache c' !! zip_path)
          ∧ _zip_index_cache c' !! zip_path = Some index
          ∧ _zip_file_mtime_cache c' !! zip_path = Some (st_mtime f) →
          is_Some (_zip_file_cache c' !! zip_path)
          ∧ _zip_index_cache c' !! zip_path = Some index
          ∧ match _zip_file_cache c' !! zip_path with
            | Some _ =>
                if decide (_zip_file_mtime_cache c' !! zip_path
                           = Some (st_mtime f))
                then match _zip_index_cache c' !! zip_path with
                     | Some index => (Ret index, c')
                     | None => (Raise KeyError, c')
                     end
                else
                  match opened f with
                  | Ret zf =>
                      (Ret (index_names ∅ 0 (namelist zf)).1,
                       store_index (close_stale c' zip_path) zip_path zf
                         (index_names ∅ 0 (namelist zf)) (st_mtime f))
                  | Raise _ =>
                      (Raise (HTTPException 500), close_stale c' zip_path)
                  end
            | None =>
                match opened f with
                | Ret zf =>
                    (Ret (index_names ∅ 0 (namelist zf)).1,
                     store_index c' zip_path zf
                       (index_names ∅ 0 (namelist zf)) (st_mtime f))
                | Raise _ => (Raise (HTTPException 500), c')
                end
            end = (Ret index, c')) as Hagain.
  { intros ([zf Hzf] & Hidx & Hmt). split_and!; [by eexists|done|].
    by rewrite Hzf, Hmt, decide_True, Hidx. }
  intros Hrun. apply Hagain. clear Hagain.
  destruct (_zip_file_cache c !! zip_path) as [zf0|] eqn:Hfile.
  - destruct (decide (_zip_file_mtime_cache c !! zip_path
                      = Some (st_mtime f))) as [Hmtime|Hmtime].
    + destruct (_zip_index_cache c !! zip_path) as [idx|] eqn:Hidx;
        [|discriminate Hrun].
      injection Hrun as <- <-. rewrite Hfile, Hidx, Hmtime. eauto.
    + by apply (Hrebuild (close_stale c zip_path)).
  - by apply (Hrebuild c).
Qed.

Lemma get_zip_index_hit_after_success_witness :
  get_zip_index (one_archive 7 MediaSpec.audios_zip_sample)
    no_archives_cached "audios.zip"
  = (Ret (build_index audios_archive),
     store_index no_archives_cached "audios.zip" MediaSpec.audios_zip_sample
       (index_names ∅ 0 audios_archive) 7)
  ∧ get_zip_index (one_archive 7 MediaSpec.audios_zip_sample)
      (store_index no_archives_cached "audios.zip"
         MediaSpec.audios_zip_sample (index_names ∅ 0 audios_archive) 7)
      "audios.zip"
    = (Ret (build_index audios_archive),
       store_index no_archives_cached "audios.zip"
         MediaSpec.audios_zip_sample (index_names ∅ 0 audios_archive) 7).
Proof.
  assert (get_zip_index (one_archive 7 MediaSpec.audios_zip_sample)
            no_archives_cached "audios.zip"
          = (Ret (build_index audios_archive),
             store_index no_archives_cached "audios.zip"
               MediaSpec.audios_zip_sample
               (index_names ∅ 0 audios_archive) 7)) as Hfirst
    by reflexivity.
  split; [done|].
  apply (get_zip_index_hit_after_success _ _ _ _ _ Hfirst).
Defined.

(** X11: when nothing is cached for an archive, or the cached
    modification time differs from the file's, [get_zip_index] reopens the
    archive and returns the index of its names as they are now; it caches
    the new handle, that index, the file's modification time and the
    number of non-directory entries. *)
Theorem get_zip_index_rebuilds disk c zip_path f zf :
  disk zip_path = Some f → opened f = Ret zf →
  _zip_file_cache c !! zip_path = None
  ∨ _zip_file_mtime_cache c !! zip_path ≠ Some (st_mtime f) →
  ∃ c', get_zip_index disk c zip_path = (Ret (build_index (namelist zf)), c')
        ∧ _zip_file_cache c' !! zip_path = Some zf
        ∧ _zip_index_cache c' !! zip_path = Some (build_index (namelist zf))
        ∧ _zip_file_mtime_cache c' !! zip_path = Some (st_mtime f)
        ∧ _zip_file_count_cache c' !! zip_path
          = Some (file_entries (namelist zf)).
Proof.
  intros Hf Hzf Hold. unfold get_zip_index. rewrite Hf, Hzf.
  assert (∀ c0,
    let c' := store_index c0 zip_path zf (index_names ∅ 0 (namelist zf))
                (st_mtime f) in
    _zip_file_cache c' !! zip_path = Some zf
    ∧ _zip_index_cache c' !! zip_path = Some (build_index (namelist zf))
    ∧ _zip_file_mtime_cache c' !! zip_path = Some (st_mtime f)
    ∧ _zip_file_count_cache c' !! zip_path
      = Some (file_entries (namelist zf))) as Hstore.
  { intros c0. simpl. rewrite !lookup_insert_eq, index_names_count.
    split_and!; done. }
  destruct (_zip_file_cache c !! zip_path) as [zf0|] eqn:Hfile.
  - destruct Hold as [|Hstale]; [done|].
    rewrite decide_False by done. eexists. split; [done|]. apply Hstore.
  - eexists. split; [done|]. apply Hstore.
Qed.

Lemma get_zip_index_rebuilds_witness :
  one_archive 7 MediaSpec.audios_zip_sample "audios.zip"
  = Some {| st_mtime := 7; opened := Ret MediaSpec.audios_zip_sample |}
  ∧ ∃ c', get_zip_index (one_archive 7 MediaSpec.audios_zip_sample)
            no_archives_cached "audios.zip"
          = (Ret (build_index (namelist MediaSpec.audios_zip_sample)), c')
          ∧ _zip_file_count_cache c' !! "audios.zip" = Some 1.
Proof.
  split; [reflexivity|].
  destruct (get_zip_index_rebuilds
              (one_archive 7 MediaSpec.audios_zip_sample)
              no_archives_cached "audios.zip"
              {| st_mtime := 7; opened := Ret MediaSpec.audios_zip_sample |}
              MediaSpec.audios_zip_sample eq_refl eq_refl
              (or_introl eq_refl))
    as (c' & Hrun & _ & _ & _ & Hcount).
  exists c'. split; [exact Hrun|exact Hcount].
Defined.

(** X12: [get_zip_index] keeps the caches consistent: if every archive
    with a cached handle has a cached index, modification time and count
    before a call, so it is after, and such a call never fails on a
    missing cache entry. *)
Theorem get_zip_index_keeps_consistent disk c zip_path :
  caches_consistent c →
  caches_consistent (get_zip_index disk c zip_path).2
  ∧ (get_zip_index disk c zip_path).1 ≠ Raise KeyError.
Proof.
  intros Hc. unfold get_zip_index.
  destruct (disk zip_path) as [f|]; [|done].
  assert (∀ c0, caches_consistent c0 → caches_consistent (close_stale c0 zip_path))
    as Hclose.
  { intros c0 H0 key. simpl. intros [zf Hk].
    apply lookup_delete_Some in Hk as [_ Hk]. apply H0. by eexists. }
  assert (∀ c0 zf built mtime,
            caches_consistent c0 →
            caches_consistent (store_index c0 zip_path zf built mtime))
    as Hstore.
  { intros c0 zf built mtime H0 key. simpl.
    destruct (decide (zip_path = key)) as [->|Hne].
    - rewrite !lookup_insert_eq. eauto.
    - rewrite !lookup_insert_ne by done. apply H0. }
  assert (∀ c0, caches_consistent c0 →
    let r := match opened f with
             | Ret zf =>
                 (Ret (index_names ∅ 0 (namelist zf)).1,
                  store_index c0 zip_path zf (index_names ∅ 0 (namelist zf))
                    (st_mtime f))
             | Raise _ =>
                 (Raise (HTTPException 500) : outcome (gmap string string), c0)
             end in
    caches_consistent r.2 ∧ r.1 ≠ Raise KeyError) as Hrebuild.
  { intros c0 H0. destruct (opened f) as [zf|e]; simpl; [|done].
    split; [by apply Hstore|done]. }
  destruct (_zip_file_cache c !! zip_path) as [zf0|] eqn:Hfile.
  - case_decide.
    + destruct (Hc zip_path) as ([idx ->] & _); [by eexists|]. done.
    + by apply Hrebuild, Hclose.
  - by apply Hrebuild.
Qed.

Lemma get_zip_index_keeps_consistent_witness :
  caches_consistent no_archives_cached
  ∧ caches_consistent
      (get_zip_index (one_archive 7 MediaSpec.audios_zip_sample)
         no_archives_cached "audios.zip").2.
Proof.
  assert (caches_consistent no_archives_cached) as Hcold.
  { intros key [zf Hk]. simpl in Hk. by rewrite lookup_empty in Hk. }
  split; [done|].
  apply (get_zip_index_keeps_consistent
           (one_archive 7 MediaSpec.audios_zip_sample)
           no_archives_cached "audios.zip" Hcold).
Defined.

(** X22: a lookup for one archive leaves what is cached for every other
    archive as it is. *)
Theorem get_zip_index_frame disk c zip_path other :
  other ≠ zip_path →
  cached_for (get_zip_index disk c zip_path).2 other = cached_for c other.
Proof.
  intros Hne. unfold get_zip_index, cached_for.
  destruct (disk zip_path) as [f|]; [|done].
  destruct (_zip_file_cache c !! zip_path).
  - case_decide.
    + by destruct (_zip_index_cache c !! zip_path).
    + destruct (opened f); simpl; [|by rewrite lookup_delete_ne].
      by rewrite !lookup_insert_ne, lookup_delete_ne.
  - destruct (opened f); simpl; [|done].
    by rewrite !lookup_insert_ne.
Qed.

Lemma get_zip_index_frame_witness :
  "images.zip"%string ≠ "audios.zip"%string
  ∧ cached_for
      (get_zip_index (one_archive 7 MediaSpec.audios_zip_sample)
         no_archives_cached "audios.zip").2 "images.zip"
    = cached_for no_archives_cached "images.zip".
Proof.
  assert ("images.zip"%string ≠ "audios.zip"%string) as Hne by done.
  split; [done|].
  apply (get_zip_index_frame (one_archive 7 MediaSpec.audios_zip_sample)
           no_archives_cached "audios.zip" "images.zip" Hne).
Defined.

(** X23: while the files on disk stay as they are, fresh caches stay
    fresh, and every index [get_zip_index] answers with, from the cache or
    rebuilt, is the index of the archive on disk. *)
Theorem get_zip_index_fresh disk c zip_path :
  caches_fresh disk c →
  caches_fresh disk (get_zip_index disk c zip_path).2
  ∧ ∀ index, (get_zip_index disk c zip_path).1 = Ret index →
             ∃ f zf, disk zip_path = Some f ∧ opened f = Ret zf
                     ∧ index = build_index (namelist zf).
Proof.
  intros Hfresh. unfold get_zip_index.
  destruct (disk zip_path) as [f|] eqn:Hf; [|done].
  assert (∀ c0 zf,
            opened f = Ret zf → caches_fresh disk c0 →
            caches_fresh disk
              (store_index c0 zip_path zf (index_names ∅ 0 (namelist zf))
                 (st_mtime f))) as Hstore.
  { intros c0 zf Hzf H0 key f'. simpl.
    destruct (decide (zip_path = key)) as [<-|Hne].
    - rewrite !lookup_insert_eq. intros _ Hf' _.
      rewrite Hf in Hf'. injection Hf' as <-. by exists zf.
    - rewrite !lookup_insert_ne by done. apply H0. }
  assert (caches_fresh disk (close_stale c zip_path)) as Hclose.
  { intros key f' [zf Hk]. simpl in *.
    apply lookup_delete_Some in Hk as [_ Hk]. apply Hfresh. by eexists. }
  destruct (_zip_file_cache c !! zip_path) as [zf0|] eqn:Hfile.
  - case_decide as Hmtime.
    + destruct (Hfresh zip_path f) as (zf & Hzf & Hidx);
        [by eexists|done..|].
      rewrite Hidx. simpl. split; [done|].
      intros index [= <-]. by exists f, zf.
    + destruct (opened f) as [zf|e] eqn:Hzf; simpl.
      * split; [by apply Hstore|]. intros index [= <-]. by exists f, zf.
      * done.
  - destruct (opened f) as [zf|e] eqn:Hzf; simpl.
    + split; [by apply Hstore|]. intros index [= <-]. by exists f, zf.
    + done.
Qed.

Lemma get_zip_index_fresh_witness :
  caches_fresh (one_archive 7 MediaSpec.audios_zip_sample) no_archives_cached
  ∧ caches_fresh (one_archive 7 MediaSpec.audios_zip_sample)
      (get_zip_index (one_archive 7 MediaSpec.audios_zip_sample)
         no_archives_cached "audios.zip").2.
Proof.
  assert (caches_fresh (one_archive 7 MediaSpec.audios_zip_sample)
            no_archives_cached) as Hcold.
  { intros key f [zf Hk]. simpl in Hk. by rewrite lookup_empty in Hk. }
  split; [done|].
  apply (get_zip_index_fresh (one_archive 7 MediaSpec.audios_zip_sample)
           no_archives_cached "audios.zip" Hcold).
Defined.
End CacheProps.

Module StreamProps.
Import Py PyMore Api IndexSpec CacheSpec Streaming.

Lemma chunk_size_pos : (0 < chunk_size)%nat.
Proof. unfold chunk_size. lia. Qed.

Lemma take_nonempty {A} (l : list A) n :
  (0 < n)%nat → l ≠ [] → take n l ≠ [].
Proof. intros Hn Hl. destruct n; [lia|]. by destruct l. Qed.

Lemma read_loop_cons fuel remaining :
  remaining ≠ [] →
  read_loop (S fuel) remaining
  = take chunk_size remaining :: read_loop fuel (drop chunk_size remaining).
Proof.
  intros Hne. cbn [read_loop].
  pose proof (take_nonempty remaining chunk_size chunk_size_pos Hne).
  by destruct (take chunk_size remaining).
Qed.

Lemma read_loop_nil fuel : read_loop fuel [] = [].
Proof. destruct fuel; [done|]. cbn [read_loop]. by rewrite take_nil. Qed.

Lemma read_loop_fuel f1 : ∀ f2 l,
  (length l < f1)%nat → (length l < f2)%nat → read_loop f1 l = read_loop f2 l.
Proof.
  pose proof chunk_size_pos.
  induction f1 as [|f1 IH]; intros f2 l H1 H2; [lia|].
  destruct f2 as [|f2]; [lia|].
  destruct l as [|b l]; [by rewrite !read_loop_nil|].
  assert (b :: l ≠ []) as Hne by discriminate.
  rewrite (read_loop_cons f1 (b :: l) Hne), (read_loop_cons f2 (b :: l) Hne).
  f_equal. apply IH; rewrite length_drop; cbn [length] in *; lia.
Qed.

Lemma read_loop_well_chunked fuel : ∀ l,
  (length l < fuel)%nat → well_chunked l (read_loop fuel l).
Proof.
  pose proof chunk_size_pos as Hpos.
  induction fuel as [|fuel IH]; intros l Hfuel; [lia|].
  destruct l as [|b l].
  { rewrite read_loop_nil. split_and!; [done|constructor|]. by intros [] ?. }
  assert (b :: l ≠ []) as Hne by discriminate.
  rewrite (read_loop_cons fuel (b :: l) Hne).
  set (data := b :: l) in *.
  assert (0 < length data)%nat as Hdata by (unfold data; cbn [length]; lia).
  clearbody data.
  destruct (IH (drop chunk_size data)) as (Hcat & Hlen & Hfull).
  { rewrite length_drop. lia. }
  split_and!.
  - cbn [concat]. rewrite Hcat. apply take_drop.
  - constructor; [|done]. rewrite length_take. lia.
  - intros [|i] ch.
    + cbn [lookup list_lookup length]. intros [= <-] Hmore.
      rewrite length_take.
      assert (drop chunk_size data ≠ []) as Hrest.
      { intros Hnil. rewrite Hnil, read_loop_nil in Hmore.
        cbn [length] in Hmore. lia. }
      assert (chunk_size < length data)%nat; [|lia].
      destruct (decide (chunk_size < length data)%nat); [done|].
      exfalso. apply Hrest, drop_ge. lia.
    + cbn [lookup list_lookup length]. intros Hi Hmore.
      apply (Hfull i); [done|lia].
Qed.

(** X13: when the member can be read, the stream of [file_iterator]
    yields chunks that put together are the member's bytes; no chunk is
    empty or longer than 64 KiB, and every chunk but the last is exactly
    64 KiB. *)
Theorem file_iterator_chunks zf target_path data :
  read zf target_path = Ret data →
  ∃ chunks, file_iterator zf target_path = Ret chunks
            ∧ well_chunked data chunks.
Proof.
  intros Hread. unfold file_iterator. rewrite Hread.
  exists (read_loop (S (length data)) data). split; [reflexivity|].
  apply read_loop_well_chunked. lia.
Qed.

Lemma file_iterator_chunks_witness :
  read MediaSpec.audios_zip_sample "media/audios/word1.mp3"
  = Ret [Byte.x49; Byte.x44; Byte.x33]
  ∧ ∃ chunks,
      file_iterator MediaSpec.audios_zip_sample "media/audios/word1.mp3"
      = Ret chunks
      ∧ concat chunks = [Byte.x49; Byte.x44; Byte.x33].
Proof.
  assert (read MediaSpec.audios_zip_sample "media/audios/word1.mp3"
          = Ret [Byte.x49; Byte.x44; Byte.x33]) as Hread by reflexivity.
  split; [done|].
  destruct (file_iterator_chunks _ _ _ Hread) as (chunks & Hrun & Hcat & _).
  by exists chunks.
Defined.

Lemma range_from_chunks (blob : bytes) fuel : ∀ i,
  (length blob ≤ fuel + i)%nat →
  (λ j, slice blob j (j + chunk_size))
    <$> range_from fuel i (length blob) chunk_size
  = read_loop (S (length blob - i)) (drop i blob).
Proof.
  pose proof chunk_size_pos as Hpos.
  induction fuel as [|fuel IH]; intros i Hfuel.
  - cbn [range_from fmap list_fmap]. rewrite drop_ge by lia.
    by rewrite read_loop_nil.
  - cbn [range_from]. case_decide as Hi.
    + rewrite fmap_cons, IH by lia.
      assert (drop i blob ≠ []) as Hne.
      { intros Hnil. apply (f_equal length) in Hnil.
        rewrite length_drop in Hnil. cbn [length] in Hnil. lia. }
      rewrite (read_loop_cons _ _ Hne). unfold slice.
      replace (i + chunk_size - i)%nat with chunk_size by lia.
      f_equal. rewrite drop_drop.
      apply read_loop_fuel; rewrite length_drop; lia.
    + rewrite drop_ge by lia. by rewrite read_loop_nil.
Qed.

(** X14: the chunks [audio_iterator] cuts a stored blob into, by stepping
    through it in slices, put together are the blob; no chunk is empty or
    longer than 64 KiB, every chunk but the last is exactly 64 KiB; and
    they are the chunks the archive stream yields for the same bytes. *)
Theorem audio_iterator_chunks blob_data :
  well_chunked blob_data (audio_iterator blob_data)
  ∧ audio_iterator blob_data = read_loop (S (length blob_data)) blob_data.
Proof.
  assert (audio_iterator blob_data
          = read_loop (S (length blob_data)) blob_data) as Heq.
  { unfold audio_iterator, range. rewrite range_from_chunks by lia.
    by rewrite Nat.sub_0_r. }
  split; [|done]. rewrite Heq. apply read_loop_well_chunked. lia.
Qed.

(** X15: once [get_zip_index] has answered with an index, the handler of
    a file in the archive answers 404 for a request path the index does
    not hold, and otherwise streams, from the cached handle, the member the
    index names; the handle is always there. *)
Theorem get_file_from_zip_resolves disk c zip_path file_path index c' :
  get_zip_index disk c zip_path = (Ret index, c') →
  ∃ zf, _zip_file_cache c' !! zip_path = Some zf
        ∧ get_file_from_zip disk c zip_path file_path
          = (match index !! file_path with
             | Some target_path => Ret (file_iterator zf target_path)
             | None => Raise (HTTPException 404)
             end, c').
Proof.
  intros Hrun. unfold get_file_from_zip. rewrite Hrun.
  assert (is_Some (_zip_file_cache c' !! zip_path)) as [zf Hzf].
  { unfold get_zip_index in Hrun.
    destruct (disk zip_path) as [f|]; [|done].
    destruct (_zip_file_cache c !! zip_path) as [zf0|] eqn:Hfile.
    - destruct (decide (_zip_file_mtime_cache c !! zip_path
                        = Some (st_mtime f))).
      + destruct (_zip_index_cache c !! zip_path); [|done].
        injection Hrun as <- <-. by rewrite Hfile.
      + destruct (opened f); [|done]. injection Hrun as <- <-. simpl.
        rewrite lookup_insert_eq. by eexists.
    - destruct (opened f); [|done]. injection Hrun as <- <-. simpl.
      rewrite lookup_insert_eq. by eexists. }
  exists zf. split; [done|].
  destruct (index !! file_path); [|done]. by rewrite Hzf.
Qed.

Lemma get_file_from_zip_resolves_witness :
  (get_zip_index (one_archive 7 MediaSpec.audios_zip_sample)
     no_archives_cached "audios.zip").1
  = Ret (build_index audios_archive)
  ∧ (get_file_from_zip (one_archive 7 MediaSpec.audios_zip_sample)
       no_archives_cached "audios.zip" "word1.mp3").1
    = Ret (Ret [[Byte.x49; Byte.x44; Byte.x33]]).
Proof.
  split; [reflexivity|].
  destruct (get_file_from_zip_resolves
              (one_archive 7 MediaSpec.audios_zip_sample)
              no_archives_cached "audios.zip" "word1.mp3"
              (build_index audios_archive)
              (store_index no_archives_cached "audios.zip"
                 MediaSpec.audios_zip_sample
                 (index_names ∅ 0 audios_archive) 7) eq_refl)
    as (zf & Hzf & ->).
  simpl in Hzf. rewrite lookup_insert_eq in Hzf. injection Hzf as <-.
  vm_compute. reflexivity.
Defined.

(** A missing archive is not found. *)
Lemma get_file_from_zip_missing disk c zip_path file_path :
  disk zip_path = None →
  get_file_from_zip disk c zip_path file_path = (Raise (HTTPException 404), c).
Proof. intros Hnone. unfold get_file_from_zip, get_zip_index. by rewrite Hnone. Qed.

(** X16: with consistent caches and no count cached for an archive,
    [count_files_in_zip_index] loads the index and answers with the number
    of non-directory entries of the archive, or with 0 when the archive is
    missing or cannot be opened; it never raises. *)
Theorem count_files_cold disk c zip_path :
  caches_consistent c →
  _zip_file_count_cache c !! zip_path = None →
  (count_files_in_zip_index disk c zip_path).1
  = match disk zip_path with
    | Some f =>
        match opened f with
        | Ret zf => file_entries (namelist zf)
        | Raise _ => 0
        end
    | None => 0
    end.
Proof.
  intros Hc Hcount. unfold count_files_in_zip_index. rewrite Hcount.
  assert (_zip_file_cache c !! zip_path = None) as Hfile.
  { destruct (_zip_file_cache c !! zip_path) as [zf|] eqn:Hzf; [|done].
    destruct (Hc zip_path) as (_ & _ & [n Hn]); [by eexists|]. congruence. }
  unfold get_zip_index. destruct (disk zip_path) as [f|]; [|done].
  rewrite Hfile. destruct (opened f) as [zf|e]; [|done].
  simpl. rewrite lookup_insert_eq. simpl.
  rewrite CacheProps.index_names_count. lia.
Qed.

Lemma count_files_cold_witness :
  caches_consistent no_archives_cached
  ∧ (count_files_in_zip_index (one_archive 7 MediaSpec.audios_zip_sample)
       no_archives_cached "audios.zip").1 = 1.
Proof.
  assert (caches_consistent no_archives_cached) as Hcold.
  { intros key [zf Hk]. simpl in Hk. by rewrite lookup_empty in Hk. }
  split; [done|].
  apply (count_files_cold (one_archive 7 MediaSpec.audios_zip_sample)
           no_archives_cached "audios.zip" Hcold eq_refl).
Defined.

(** X17: [download_file] refuses with 400 every file name outside its
    table of four, before any path is looked at; what it serves is one of
    the four names, found directly under the dictionary's directory, with
    the media type and cache lifetime of the table. *)
Theorem download_file_allowed_only root path_exists dict_id filename :
  (filename ∉ ["logo.png"; "metadata.json"; "dictionary.db"; "media.db"]
   → download_file root path_exists dict_id filename
     = Raise (HTTPException 400))
  ∧ ∀ d, download_file root path_exists dict_id filename = Ret d →
         filename ∈ ["logo.png"; "metadata.json"; "dictionary.db"; "media.db"]
         ∧ attachment_name d = filename
         ∧ parts (served_path d)
           = parts (truediv root dict_id) ++ [filename]
         ∧ path_exists (served_path d) = true
         ∧ ALLOWED_FILES !! filename = Some (media_type d, max_age d).
Proof.
  assert (∀ entry, ALLOWED_FILES !! filename = Some entry →
            filename ∈ ["logo.png"; "metadata.json"; "dictionary.db";
                        "media.db"]%string) as Hin.
  { intros entry Hf.
    destruct (decide (filename ∈ ["logo.png"; "metadata.json";
                                  "dictionary.db"; "media.db"]%string))
      as [|Hout]; [done|].
    rewrite !not_elem_of_cons in Hout.
    destruct Hout as (H1 & H2 & H3 & H4 & _).
    unfold ALLOWED_FILES in Hf.
    rewrite !lookup_insert_ne, lookup_singleton_ne in Hf by done.
    discriminate Hf. }
  unfold download_file. split.
  - intros Hout. destruct (ALLOWED_FILES !! filename) as [entry|] eqn:Hf;
      [|done].
    exfalso. apply Hout. exact (Hin entry eq_refl).
  - intros d. destruct (ALLOWED_FILES !! filename) as [[mt age]|] eqn:Hf;
      [|done].
    pose proof (Hin _ eq_refl) as Hname.
    destruct (path_exists _) eqn:Hex; [|done]. simpl. intros [= <-]. simpl.
    split_and!; [done|done| |done|done].
    clear Hin Hf Hex.
    repeat (apply elem_of_cons in Hname as [->|Hname]);
      [reflexivity..|by apply elem_of_nil in Hname].
Qed.
End StreamProps.

(** ** Further properties of the codec cache and of the migration *)

Module MigrationProps.
Import Py PyMore Api IndexSpec CacheSpec MediaSpec.

(** X18: a context that [get_zstd_decompressor] has returned for a
    dictionary stays: every later call for that dictionary returns the
    same context and leaves the caches as they are, whatever has become of
    the dictionary's database and of its training blob. *)
Theorem cached_context_sticks `{!Zstd.Codec} disk st dict_id dctx st' :
  get_zstd_decompressor disk st dict_id = (Some dctx, st') →
  ∀ disk', get_zstd_decompressor disk' st' dict_id = (Some dctx, st').
Proof.
  unfold get_zstd_decompressor.
  destruct (_zstd_decompressors st !! dict_id) as [cached|] eqn:Hcache.
  - intros [= <- <-] disk'. by rewrite Hcache.
  - destruct (get_db_connection disk st dict_id) as [[conn|] st1]; [|done].
    intros [= <- <-] disk'. simpl. by rewrite lookup_insert_eq.
Qed.

Lemma cached_context_sticks_witness :
  @get_zstd_decompressor Zstd.frame_codec
    (CodecSpec.only_en_fr (Some (Some [Byte.x61; Byte.x62])))
    CodecSpec.cold "en-fr"
  = (Some (CodecSpec.seeded [Byte.x61; Byte.x62]),
     (@get_zstd_decompressor Zstd.frame_codec
        (CodecSpec.only_en_fr (Some (Some [Byte.x61; Byte.x62])))
        CodecSpec.cold "en-fr").2)
  ∧ (@get_zstd_decompressor Zstd.frame_codec CodecSpec.no_dictionaries
       (@get_zstd_decompressor Zstd.frame_codec
          (CodecSpec.only_en_fr (Some (Some [Byte.x61; Byte.x62])))
          CodecSpec.cold "en-fr").2 "en-fr").1
    = Some (CodecSpec.seeded [Byte.x61; Byte.x62]).
Proof.
  assert (@get_zstd_decompressor Zstd.frame_codec
            (CodecSpec.only_en_fr (Some (Some [Byte.x61; Byte.x62])))
            CodecSpec.cold "en-fr"
          = (Some (CodecSpec.seeded [Byte.x61; Byte.x62]),
             (@get_zstd_decompressor Zstd.frame_codec
                (CodecSpec.only_en_fr (Some (Some [Byte.x61; Byte.x62])))
                CodecSpec.cold "en-fr").2)) as Hfirst by reflexivity.
  split; [done|].
  by rewrite (cached_context_sticks _ _ _ _ _ Hfirst CodecSpec.no_dictionaries).
Defined.

Lemma unreachable_nothing_cached_witness :
  _zstd_decompressors CodecSpec.cold !! "ghost" = None
  ∧ ∃ st', @get_zstd_decompressor Zstd.frame_codec CodecSpec.no_dictionaries
             CodecSpec.cold "ghost" = (None, st')
           ∧ _zstd_decompressors st' !! "ghost" = None.
Proof.
  split; [reflexivity|].
  apply (@CodecProps.get_zstd_decompressor_unreachable Zstd.frame_codec
           CodecSpec.no_dictionaries CodecSpec.cold "ghost");
    reflexivity.
Defined.

(** *** What the migration stores *)

Lemma migrate_members_success zf members : ∀ t1 t2,
  (migrate_members zf members t1).1 = (migrate_members zf members t2).1.
Proof.
  induction members as [|m members IH]; intros t1 t2; simpl; [done|].
  destruct (is_dir m); [apply IH|].
  destruct (read zf (filename m)); [apply IH|done].
Qed.

(** X19: running a migration that completed once more completes again and
    changes nothing in the table. *)
Theorem migration_idempotent zf table table' :
  migrate_zip (Ret zf) table = (Ret (), table') →
  migrate_zip (Ret zf) table' = (Ret (), table').
Proof.
  simpl. intros Hrun.
  destruct (migrate_members zf zf table') as [r table''] eqn:Hagain.
  assert (r = Ret ()) as ->.
  { pose proof (migrate_members_success zf zf table table') as Hsame.
    rewrite Hrun, Hagain in Hsame. done. }
  f_equal. apply map_eq. intros key.
  rewrite (MediaProps.migrate_members_lookup _ _ _ _ key Hagain).
  rewrite (MediaProps.migrate_members_lookup _ _ _ _ key Hrun).
  by destruct (last (filter (stored_as key) zf)).
Qed.

Lemma migration_idempotent_witness :
  migrate_zip (Ret audios_zip_sample) ∅
  = (Ret (), {[ "word1.mp3"%string := [Byte.x49; Byte.x44; Byte.x33] ]})
  ∧ migrate_zip (Ret audios_zip_sample)
      {[ "word1.mp3"%string := [Byte.x49; Byte.x44; Byte.x33] ]}
    = (Ret (), {[ "word1.mp3"%string := [Byte.x49; Byte.x44; Byte.x33] ]}).
Proof.
  assert (migrate_zip (Ret audios_zip_sample) ∅
          = (Ret (), {[ "word1.mp3"%string
                        := [Byte.x49; Byte.x44; Byte.x33] ]})) as Hfirst
    by reflexivity.
  split; [done|].
  apply (migration_idempotent _ _ _ Hfirst).
Defined.

(** *** The migrated table and the archive index *)

Lemma no_separator_split s : contains "/" s = false → split "/" s = [s].
Proof.
  induction s as [|c s IH]; [done|]. intros Hs.
  apply AccountProps.contains_char_cons in Hs as [Hc Hs].
  cbn [split]. rewrite decide_False by done. by rewrite IH.
Qed.

Lemma contains_append_r sub a b :
  contains sub b = true → contains sub (a +:+ b) = true.
Proof.
  intros Hb. induction a as [|c a IH]; [done|].
  rewrite AccountProps.append_cons, AccountProps.contains_cons, IH.
  apply orb_true_r.
Qed.

Lemma join_has_separator w w' ws :
  contains "/" (join "/" (w :: w' :: ws)) = true.
Proof.
  change (join "/" (w :: w' :: ws))
    with (w +:+ String "/" (join "/" (w' :: ws))).
  apply contains_append_r.
  rewrite AccountProps.contains_cons, AccountProps.prefix_cons.
  by rewrite AccountProps.prefix_nil.
Qed.

Lemma last_item_of_tail k (l : list string) w :
  drop k l = [w] → last_item l = w.
Proof.
  intros Hdrop. rewrite <-(take_drop k l), Hdrop.
  unfold last_item. apply last_last.
Qed.

Lemma tail_without_separator k name p :
  contains "/" p = false →
  p = join "/" (drop k (split "/" name)) →
  (k < length (split "/" name))%nat →
  last_item (split "/" name) = p.
Proof.
  intros Hp -> Hlen.
  destruct (drop k (split "/" name)) as [|w [|w' ws]] eqn:Hdrop.
  - apply (f_equal length) in Hdrop. rewrite length_drop in Hdrop.
    simpl in Hdrop. lia.
  - by apply (last_item_of_tail k).
  - by rewrite join_has_separator in Hp.
Qed.

Lemma key_variants_flat name p :
  contains "/" p = false →
  p ∈ key_variants name ↔ last_item (split "/" name) = p.
Proof.
  intros Hp. unfold key_variants, derived_keys, basename, tail_stripped,
    segments. split.
  - intros [->|Hin]%elem_of_cons.
    + by rewrite no_separator_split.
    + apply elem_of_app in Hin as [->%list_elem_of_singleton|Hin]; [done|].
      apply elem_of_app in Hin as [Hin|Hin]; case_decide;
        try (by apply elem_of_nil in Hin);
        apply list_elem_of_singleton in Hin.
      * apply (tail_without_separator 1); [done..|lia].
      * apply (tail_without_separator 2); [done..|lia].
  - intros <-. right. by left.
Qed.

(** X20: after a migration of an archive into an empty table has
    completed, a request path without a directory separator finds in the
    table exactly the bytes of the member the archive index resolves that
    path to, and nothing when the index does not hold the path. *)
Theorem migrated_table_matches_index zf table p :
  migrate_zip (Ret zf) ∅ = (Ret (), table) →
  contains "/" p = false →
  table !! p = migrated_content zf (build_index (namelist zf) !! p).
Proof.
  simpl. intros Hrun Hp.
  rewrite (MediaProps.migrate_members_lookup _ _ _ _ p Hrun), lookup_empty.
  assert (build_index (namelist zf) !! p
          = filename <$> last (filter (stored_as p) zf)) as ->.
  { unfold build_index.
    rewrite IndexProps.index_names_lookup, lookup_empty.
    assert (registrants (namelist zf) p
            = filename <$> filter (stored_as p) zf) as ->.
    { unfold registrants, namelist. clear Hrun.
      induction zf as [|m zf IH]; [done|].
      rewrite fmap_cons, !filter_cons, IH.
      destruct (decide (stored_as p m)) as [[Hdir Hbase]|Hno].
      - rewrite decide_True; [done|]. split; [exact Hdir|].
        by apply key_variants_flat.
      - rewrite decide_False; [done|]. intros [Hdir Hkey]. apply Hno.
        split; [exact Hdir|]. by apply key_variants_flat. }
    rewrite fmap_last. by destruct (last (filter (stored_as p) zf)). }
  by destruct (last (filter (stored_as p) zf)).
Qed.

Lemma migrated_table_matches_index_witness :
  contains "/" "word1.mp3" = false
  ∧ ({[ "word1.mp3"%string := [Byte.x49; Byte.x44; Byte.x33] ]}
       : gmap string bytes) !! "word1.mp3"
    = migrated_content audios_zip_sample
        (build_index (namelist audios_zip_sample) !! "word1.mp3").
Proof.
  split; [reflexivity|].
  apply (migrated_table_matches_index audios_zip_sample _ "word1.mp3");
    reflexivity.
Defined.

(** X21: the service and the stand-alone script report the same outcome
    of a migration, and when it is success they leave the same database. *)
Theorem script_agrees_with_service i db :
  (Api.migrate_zip_to_media_db i db).1
  = (MigrateScript.migrate_zip_to_media_db i db).1
  ∧ ((Api.migrate_zip_to_media_db i db).1 = true →
     Api.migrate_zip_to_media_db i db
     = MigrateScript.migrate_zip_to_media_db i db).
Proof.
  unfold Api.migrate_zip_to_media_db, MigrateScript.migrate_zip_to_media_db.
  destruct (audios_zip i) as [az|], (images_zip i) as [iz|];
    try done;
    destruct (create_media_db_ok i), (connection_ok i); simpl; try done.
  - destruct (migrate_zip az (audios db)) as [[[]|] a]; simpl; [|done].
    destruct (migrate_zip iz (images db)) as [[[]|] im]; simpl; done.
  - destruct (migrate_zip az (audios db)) as [[[]|] a]; simpl; done.
  - destruct (migrate_zip iz (images db)) as [[[]|] im]; simpl; done.
Qed.
End MigrationProps.
